(** * GTAD translator: rule tables and the two resolvers

    A shallow embedding of [translator.cpp]: the attribute merger
    ([addTypeAttributes]), the rule table parser ([parseTargetType],
    [parseEntries], [parseTypeEntry], [loadStringMap]) and the two
    resolvers ([Translator::mapType], [Translator::mapIdentifier]),
    followed by the properties of these functions.

    C++ exceptions are results of an error monad; [std::clog] is an
    explicit list of diagnostics; [std::unordered_map] is a [gmap];
    the order-preserving [pair_vector_t] is a list of pairs;
    [std::regex] is a parameter of the development. *)

From Stdlib Require Import String Ascii List Bool Arith Lia.
From stdpp Require Import base option list strings gmap fin_maps.
Import ListNotations.
Local Open Scope string_scope.

(** ** Exceptions *)

(** What the code can throw: the [YamlException] of the configuration
    parser and the [std::regex_error] of the regular expression library. *)
Inductive exn : Type :=
| YamlException (msg : string)
| regex_error.

Inductive result (A : Type) : Type :=
| Ok (a : A)
| Throw (e : exn).
Arguments Ok {A} a.
Arguments Throw {A} e.

#[global] Instance result_ret : MRet result := fun _ a => Ok a.
#[global] Instance result_bind : MBind result := fun _ _ f r =>
  match r with
  | Ok a => f a
  | Throw e => Throw e
  end.

Definition returns {A} (r : result A) : Prop := exists a, r = Ok a.

(** ** std::string operations used by the code *)

Definition empty (s : string) : bool :=
  match s with
  | EmptyString => true
  | String _ _ => false
  end.

Definition size (s : string) : nat := String.length s.

(** [front] and [back] are only called on strings the code knows to be
    non-empty, or behind a [size() > 1] or [!empty()] guard evaluated
    first; [None] stands for the call on an empty string. *)
Definition front (s : string) : option ascii :=
  match s with
  | EmptyString => None
  | String c _ => Some c
  end.

Fixpoint back (s : string) : option ascii :=
  match s with
  | EmptyString => None
  | String c EmptyString => Some c
  | String _ rest => back rest
  end.

Fixpoint pop_back (s : string) : string :=
  match s with
  | EmptyString => EmptyString
  | String _ EmptyString => EmptyString
  | String c rest => String c (pop_back rest)
  end.

Definition is_char (o : option ascii) (c : ascii) : bool :=
  match o with
  | Some d => Ascii.eqb d c
  | None => false
  end.

Definition slash : ascii := "/"%char.

(** The characters of [[++s.begin(), s.end())]: the pattern behind the
    leading marker. *)
Definition after_marker (s : string) : string :=
  match s with
  | EmptyString => EmptyString
  | String _ rest => rest
  end.

(** ** YAML nodes *)

(** A YAML node as the code inspects it through [Type()]. A map is the
    list of its pairs in document order, which is the order the
    range-for loops visit them in; keys are the scalar strings that
    [first.as<string>()] yields. *)
#[local] Set Warnings "-register-all".
Inductive YamlNode : Type :=
| YNull
| YScalar (s : string)
| YSequence (items : list YamlNode)
| YMap (pairs : list (string * YamlNode)).

Abbreviation YamlMap := (list (string * YamlNode)).
Abbreviation YamlSequence := (list YamlNode).

(** Modelled from the spec: the wrappers of [yaml.h] are not part of
    the sources. A malformed shape is a fatal configuration error. *)
Definition asMap (n : YamlNode) : result (YamlMap) :=
  match n with
  | YMap m => Ok m
  | _ => Throw (YamlException "map expected")
  end.

(** Modelled from the spec: [as<string>()] of [yaml.h], the content of
    a scalar node. *)
Definition as_string (n : YamlNode) : result string :=
  match n with
  | YScalar s => Ok s
  | _ => Throw (YamlException "scalar expected")
  end.

(** Modelled from the spec: [operator[]] of [yaml.h] on a map, the
    value of the first pair under the key, if any. *)
Fixpoint at_key (key : string) (m : YamlMap) : option YamlNode :=
  match m with
  | [] => None
  | (k, v) :: rest => if decide (k = key) then Some v else at_key key rest
  end.

(** Modelled from the spec: [as<string>(fallback)] of [yaml.h] on the
    result of a lookup; the fallback is used when there is no scalar
    to read. *)
Definition as_string_or (fallback : string) (n : option YamlNode) : string :=
  match n with
  | Some (YScalar s) => s
  | _ => fallback
  end.

(** Modelled from the spec: [asStrings] of [yaml.h], "the ordered
    sequence of its string elements". *)
Fixpoint asStrings (l : YamlSequence) : result (list string) :=
  match l with
  | [] => Ok []
  | n :: rest =>
      s ← as_string n;
      ss ← asStrings rest;
      Ok (s :: ss)
  end.

(** ** TypeUsage *)

(** Modelled from the spec: [TypeUsage] is declared in [model.h], which
    is not among the sources. The spec's data model gives it the fields
    [baseName], [attributes] and [lists]; the translator assigns
    [baseName] in [mapType] and fills the two maps with [emplace] in
    [addTypeAttributes]. *)
Record TypeUsage : Type := mkTypeUsage {
  baseName : string;
  attributes : gmap string string;
  lists : gmap string (list string)
}.

(** Modelled from the spec: the constructors of [TypeUsage], declared
    in [model.h]. [TypeUsage(name)] has no attributes and no lists and
    keeps [name]; the spec's data model has one field for a name,
    [baseName], and the model keeps it there. Which field the
    constructor of [model.h] fills is not decided by the sources or by
    the spec. The default constructor is [TypeUsage_of ""]. *)
Definition TypeUsage_of (name : string) : TypeUsage :=
  {| baseName := name; attributes := ∅; lists := ∅ |}.

Definition set_baseName (name : string) (tu : TypeUsage) : TypeUsage :=
  {| baseName := name; attributes := attributes tu; lists := lists tu |}.

(** [std::unordered_map::emplace]: the pair is inserted only when the
    key is not in the container yet. *)
Definition emplace {V} (k : string) (v : V) (m : gmap string V) : gmap string V :=
  match m !! k with
  | Some _ => m
  | None => <[k := v]> m
  end.

(** ** addTypeAttributes *)

(** The body of the loop of [addTypeAttributes], for one pair. In the
    [Sequence] case the node converted by [asSequence] is a defined
    node, so the test of the [if] holds and the list is emplaced. *)
Definition addTypeAttribute (typeUsage : TypeUsage) (attr : string * YamlNode)
  : result TypeUsage :=
  let attrName := attr.1 in
  if decide (attrName = "type") then Ok typeUsage
  else match attr.2 with
       | YNull =>
           Ok {| baseName := baseName typeUsage;
                 attributes := emplace attrName "" (attributes typeUsage);
                 lists := lists typeUsage |}
       | YScalar s =>
           Ok {| baseName := baseName typeUsage;
                 attributes := emplace attrName s (attributes typeUsage);
                 lists := lists typeUsage |}
       | YSequence seq =>
           strs ← asStrings seq;
           Ok {| baseName := baseName typeUsage;
                 attributes := attributes typeUsage;
                 lists := emplace attrName strs (lists typeUsage) |}
       | YMap _ => Throw (YamlException "Malformed attribute")
       end.

Fixpoint addTypeAttributes (typeUsage : TypeUsage)
    (attributesMap : YamlMap) : result TypeUsage :=
  match attributesMap with
  | [] => Ok typeUsage
  | attr :: rest =>
      tu ← addTypeAttribute typeUsage attr;
      addTypeAttributes tu rest
  end.

(** ** parseTargetType *)

(** The one-argument overload. *)
Definition parseTargetType1 (yamlTypeNode : YamlNode) : result TypeUsage :=
  match yamlTypeNode with
  | YNull => Ok (TypeUsage_of "")
  | YScalar s => Ok (TypeUsage_of s)
  | _ =>
      yamlTypeMap ← asMap yamlTypeNode;
      addTypeAttributes
        (TypeUsage_of (as_string_or "" (at_key "type" yamlTypeMap)))
        yamlTypeMap
  end.

(** The two-argument overload: the entry's own node first, the common
    attributes second. *)
Definition parseTargetType (yamlTypeNode : YamlNode)
    (commonAttributesYaml : YamlMap) : result TypeUsage :=
  tu ← parseTargetType1 yamlTypeNode;
  addTypeAttributes tu commonAttributesYaml.

(** ** parseEntries *)

Section ParseEntries.
(** The container the inserter appends to, and the inserter. *)
Context {Acc : Type}.
Variable inserter :
  string -> YamlNode -> YamlMap -> Acc -> result Acc.

(** One iteration of the loop of [parseEntries], on the block
    [typesBlockYaml]; the recursive call on the [+on] sequence is the
    inner loop. *)
Fixpoint parseBlock (typesBlockYaml : YamlNode)
    (commonAttributesYaml : YamlMap) (acc : Acc)
    {struct typesBlockYaml} : result Acc :=
  match typesBlockYaml with
  | YMap [] => Throw (YamlException "Empty type entry")
  | YMap [(name, typeYaml)] => inserter name typeYaml commonAttributesYaml acc
  | YMap [(k1, v1); (k2, v2)] =>
      let group (on : YamlNode) (set : YamlNode) : result Acc :=
        match on with
        | YSequence entries =>
            shared ← asMap set;
            (fix loop (l : YamlSequence) (acc : Acc) : result Acc :=
               match l with
               | [] => Ok acc
               | block :: rest =>
                   acc' ← parseBlock block shared acc;
                   loop rest acc'
               end) entries acc
        | _ => Throw (YamlException "sequence expected")
        end in
      if decide (k1 = "+on" /\ k2 = "+set") then group v1 v2
      else if decide (k1 = "+set" /\ k2 = "+on") then group v2 v1
      else Throw (YamlException "Too many entries in the map, check indentation")
  | YMap _ =>
      Throw (YamlException "Too many entries in the map, check indentation")
  | _ => Throw (YamlException "map expected")
  end.

Fixpoint parseEntries (entriesYaml : YamlSequence)
    (commonAttributesYaml : YamlMap) (acc : Acc)
    : result Acc :=
  match entriesYaml with
  | [] => Ok acc
  | block :: rest =>
      acc' ← parseBlock block commonAttributesYaml acc;
      parseEntries rest commonAttributesYaml acc'
  end.
End ParseEntries.

(** ** parseTypeEntry *)

(** The normalisation of a format name in the lambda of
    [parseTypeEntry]. *)
Definition normalizeFormatName (formatName : string) : string :=
  if empty formatName then "/"
  else if (1 <? size formatName)%nat
          && is_char (front formatName) slash
          && is_char (back formatName) slash
       then pop_back formatName
       else formatName.

(** The lambda of [parseTypeEntry]; [targetTypes] is its captured
    vector. *)
Definition formatInserter (formatName : string) (typeYaml : YamlNode)
    (commonAttrsYaml : YamlMap)
    (targetTypes : list (string * TypeUsage))
  : result (list (string * TypeUsage)) :=
  tu ← parseTargetType typeYaml commonAttrsYaml;
  Ok (targetTypes ++ [(normalizeFormatName formatName, tu)])%list.

Definition parseTypeEntry (targetTypeYaml : YamlNode)
    (commonAttributesYaml : YamlMap)
  : result (list (string * TypeUsage)) :=
  match targetTypeYaml with
  | YScalar _ | YMap _ =>
      tu ← parseTargetType targetTypeYaml commonAttributesYaml;
      Ok [("", tu)]
  | YSequence entries =>
      parseEntries formatInserter entries commonAttributesYaml []
  | YNull => Throw (YamlException "Malformed type entry")
  end.

(** The lambda of the constructor that fills [_typesMap], and the
    loading of the [types] section. *)
Definition typeInserter (name : string) (typeYaml : YamlNode)
    (commonAttrsYaml : YamlMap)
    (typesMap : list (string * list (string * TypeUsage)))
  : result (list (string * list (string * TypeUsage))) :=
  entry ← parseTypeEntry typeYaml commonAttrsYaml;
  Ok (typesMap ++ [(name, entry)])%list.

Definition loadTypesMap (typesYaml : YamlSequence)
  : result (list (string * list (string * TypeUsage))) :=
  parseEntries typeInserter typesYaml [] [].

(** ** loadStringMap *)

(** The two diagnostics written to [std::clog], without the location
    prefix and the [std::endl] that ends the first; the second has its
    two lines, with the [std::endl] between them as a line feed. *)
Definition warn_empty_pattern : string :=
  "warning: empty pattern in substitutions, skipping".
Definition warn_invalid_regex : string :=
  ("warning: invalid regular expression, skipping"
   ++ String "010"%char
        "(use a regex with \/ to match strings beginning with /)")%string.

(** The state of the loop of [loadStringMap]: what has been written to
    [std::clog] so far, and the vector being filled. *)
Record LoadState : Type := mkLoadState {
  clog : list string;
  stringMap : list (string * string)
}.

(** The body of the loop of [loadStringMap], for one pair. *)
Definition loadSubst (st : LoadState) (subst : string * YamlNode)
  : result LoadState :=
  let pattern := subst.1 in
  if empty pattern then
    Ok {| clog := (clog st ++ [warn_empty_pattern])%list; stringMap := stringMap st |}
  else if (1 <? size pattern)%nat
          && negb (is_char (front pattern) slash)
          && is_char (back pattern) slash
  then
    Ok {| clog := (clog st ++ [warn_invalid_regex])%list; stringMap := stringMap st |}
  else
    let pattern' :=
      if is_char (front pattern) slash && is_char (back pattern) slash
      then pop_back pattern else pattern in
    replacement ← as_string subst.2;
    Ok {| clog := clog st; stringMap := (stringMap st ++ [(pattern', replacement)])%list |}.

Fixpoint loadStringMap_from (st : LoadState) (yaml : YamlMap)
  : result LoadState :=
  match yaml with
  | [] => Ok st
  | subst :: rest =>
      st' ← loadSubst st subst;
      loadStringMap_from st' rest
  end.

Definition loadStringMap (yaml : YamlMap) : result LoadState :=
  loadStringMap_from {| clog := []; stringMap := [] |} yaml.

(** ** The resolvers *)

Section Resolvers.
(** The regular expression library. [regex_search subject pattern]
    is [std::regex_search(subject, std::regex(pattern))] and
    [regex_replace subject pattern fmt] is
    [std::regex_replace(subject, std::regex(pattern), fmt)]; [None]
    is a thrown [std::regex_error]. *)
Variable regex_search : string -> string -> option bool.
Variable regex_replace : string -> string -> string -> option string.

Definition regex_result {A} (o : option A) : result A :=
  match o with
  | Some a => Ok a
  | None => Throw regex_error
  end.

(** The condition of the inner [if] of [mapType]; [||] and [&&]
    evaluate left to right and stop early. *)
Definition formatMatches (swFormat swaggerFormat : string) : result bool :=
  if decide (swFormat = swaggerFormat) then Ok true
  else if negb (empty swFormat) && is_char (front swFormat) slash
       then regex_result (regex_search swaggerFormat (after_marker swFormat))
       else Ok false.

(** The inner loop of [mapType]: the [TypeUsage] of the first pair
    whose format matches. *)
Fixpoint scanFormats (formats : list (string * TypeUsage))
    (swaggerFormat : string) : result (option TypeUsage) :=
  match formats with
  | [] => Ok None
  | swFormatPair :: rest =>
      hit ← formatMatches swFormatPair.1 swaggerFormat;
      if (hit : bool) then Ok (Some swFormatPair.2)
      else scanFormats rest swaggerFormat
  end.

(** Both loops of [mapType], up to the label [conclusion]: [Some tu]
    when the [goto] was taken with [tu] assigned, [None] when the
    loops ran to their end. *)
Fixpoint scanTypes (typesMap : list (string * list (string * TypeUsage)))
    (swaggerType swaggerFormat : string) : result (option TypeUsage) :=
  match typesMap with
  | [] => Ok None
  | swTypePair :: rest =>
      if decide (swTypePair.1 = swaggerType) then
        found ← scanFormats swTypePair.2 swaggerFormat;
        match found with
        | Some tu => Ok (Some tu)
        | None => scanTypes rest swaggerType swaggerFormat
        end
      else scanTypes rest swaggerType swaggerFormat
  end.

(** The fallback chain after the label [conclusion]. *)
Definition fallbackName (swaggerType swaggerFormat baseName : string) : string :=
  if empty baseName
  then if empty swaggerFormat then swaggerType else swaggerFormat
  else baseName.

Definition mapType (typesMap : list (string * list (string * TypeUsage)))
    (swaggerType swaggerFormat baseName : string) : result TypeUsage :=
  found ← scanTypes typesMap swaggerType swaggerFormat;
  let tu := default (TypeUsage_of "") found in
  Ok (set_baseName (fallbackName swaggerType swaggerFormat baseName) tu).

Definition scopedName_of (scope baseName : string) : string :=
  scope ++ String slash baseName.

(** The loop of [mapIdentifier] over [_identifiers]. *)
Fixpoint scanIdentifiers (identifiers : list (string * string))
    (baseName scopedName : string) : result string :=
  match identifiers with
  | [] => Ok baseName
  | entry :: rest =>
      let pattn := entry.1 in
      if negb (empty pattn) && is_char (front pattn) slash
      then regex_result (regex_replace scopedName (after_marker pattn) entry.2)
      else if decide (pattn = baseName \/ pattn = scopedName)
           then Ok entry.2
           else scanIdentifiers rest baseName scopedName
  end.

Definition mapIdentifier (identifiers : list (string * string))
    (baseName scope : string) : result string :=
  scanIdentifiers identifiers baseName (scopedName_of scope baseName).
End Resolvers.

(** ** A regular expression engine for a fragment of the syntax *)

(** An executable instance of the regular expression parameters, used
    to evaluate the resolvers on concrete tables. It covers the
    patterns made of literal characters and [.], each optionally
    followed by [*], with the ECMAScript reading [std::regex] defaults
    to: [.] is any character but a line terminator, [*] is greedy, and
    a search succeeds when the pattern matches at some position of the
    subject. A pattern that uses any other special character is outside
    the fragment and gets no answer here. *)
Module FragmentRegex.

Inductive atom : Type :=
| Lit (c : ascii)
| AnyChar.

(** An atom and whether it is starred. *)
Definition item : Type := atom * bool.

Definition special (c : ascii) : bool :=
  existsb (Ascii.eqb c)
    ["\"; "^"; "$"; "."; "*"; "+"; "?"; "("; ")"; "["; "]"; "{"; "}"; "|"]%char.

Definition line_terminator (c : ascii) : bool :=
  Ascii.eqb c "010"%char || Ascii.eqb c "013"%char.

Definition atom_of (c : ascii) : option atom :=
  if Ascii.eqb c "."%char then Some AnyChar
  else if special c then None
  else Some (Lit c).

Fixpoint parse (pattern : string) : option (list item) :=
  match pattern with
  | EmptyString => Some []
  | String c rest =>
      a ← atom_of c;
      match rest with
      | String "*"%char rest' => items ← parse rest'; Some ((a, true) :: items)
      | _ => items ← parse rest; Some ((a, false) :: items)
      end
  end.

Definition accepts (a : atom) (c : ascii) : bool :=
  match a with
  | Lit d => Ascii.eqb c d
  | AnyChar => negb (line_terminator c)
  end.

(** The match of [items] at the start of [s], by backtracking with
    greedy stars: the input left after the match. *)
Fixpoint match_here (items : list item) : string -> option string :=
  match items with
  | [] => fun s => Some s
  | (a, false) :: rest => fun s =>
      match s with
      | String c s' => if accepts a c then match_here rest s' else None
      | EmptyString => None
      end
  | (a, true) :: rest =>
      fix star (s : string) : option string :=
        match s with
        | String c s' =>
            if accepts a c
            then match star s' with
                 | Some remaining => Some remaining
                 | None => match_here rest s
                 end
            else match_here rest s
        | EmptyString => match_here rest EmptyString
        end
  end.

Fixpoint search_from (items : list item) (s : string) : bool :=
  match match_here items s with
  | Some _ => true
  | None =>
      match s with
      | String _ s' => search_from items s'
      | EmptyString => false
      end
  end.

Definition regex_search (subject pattern : string) : option bool :=
  items ← parse pattern;
  Some (search_from items subject).

(** Replacement of every match, for the patterns of the fragment
    that have no star and are not empty (their matches have the
    length of the pattern) and a replacement text without [$]. *)
Fixpoint replace_all (items : list item) (fmt : string) (skip : nat)
    (s : string) : string :=
  match s with
  | EmptyString => EmptyString
  | String c s' =>
      match skip with
      | S k => replace_all items fmt k s'
      | O =>
          match match_here items s with
          | Some _ => fmt ++ replace_all items fmt (pred (length items)) s'
          | None => String c (replace_all items fmt O s')
          end
      end
  end.

Fixpoint has_dollar (s : string) : bool :=
  match s with
  | EmptyString => false
  | String c rest => Ascii.eqb c "$"%char || has_dollar rest
  end.

Definition regex_replace (subject pattern fmt : string) : option string :=
  items ← parse pattern;
  if forallb (fun i : item => negb i.2) items
     && negb (Nat.eqb (length items) 0)
     && negb (has_dollar fmt)
  then Some (replace_all items fmt O subject)
  else None.

End FragmentRegex.

(** ** Configurations and notions used in the statements *)

(** A table with one rule that records a name of its own. *)
Definition long_table : list (string * list (string * TypeUsage)) :=
  [("integer", [("int64", TypeUsage_of "long")])].

(** The configuration
    [[{"": {type: "int32"}}, {"int64": {type: "int64"}}]]
    and the rule list it is parsed into. *)
Definition int_formats_yaml : YamlNode :=
  YSequence [YMap [("", YMap [("type", YScalar "int32")])];
             YMap [("int64", YMap [("type", YScalar "int64")])]].

Definition int_formats : list (string * TypeUsage) :=
  [("/", TypeUsage_of "int32"); ("int64", TypeUsage_of "int64")].

(** The empty regular expression matches (at position 0 of) every
    subject. *)
Definition empty_pattern_matches (regex_search : string -> string -> option bool)
  : Prop :=
  forall subject, regex_search subject "" = Some true.

(** Identifier rules that are neither regex rules nor equal to one of
    the two names are passed over. *)
Definition passes (baseName scopedName : string) (entry : string * string) : Prop :=
  front entry.1 <> Some slash /\ entry.1 <> baseName /\ entry.1 <> scopedName.

(** The list of pairs that exercises the three outcomes of the loader. *)
Definition sample_rules : YamlMap :=
  [("", YNull); ("abc/", YNull); ("/a.c/", YScalar "x");
   ("Id", YScalar "Identifier")].

(** An entry of its own and the shared attributes of a grouping
    directive: [avoidCopy] and [imports] are in both. *)
Definition own_yaml : YamlNode :=
  YMap [("type", YScalar "QString"); ("avoidCopy", YScalar "no");
        ("imports", YSequence [YScalar "<QtCore/QString>"])].

Definition shared_yaml : YamlMap :=
  [("avoidCopy", YScalar "yes"); ("moveOnly", YNull);
   ("imports", YSequence [YScalar "<string>"])].

(** ** The constructor's output directory *)

(** [QString::endsWith(QChar)]; false on the empty string. *)
Definition endsWith (s : string) (c : ascii) : bool := is_char (back s) c.

(** The initialiser of [_outputDirPath] in the constructor of
    [Translator]. *)
Definition outputDirPath_of (outputDirPath : string) : string :=
  if endsWith outputDirPath slash then outputDirPath
  else (outputDirPath ++ "/")%string.

(** ** Notions used to describe the loaders *)

(** One call of the inserter of [parseEntries]: the key, the node and
    the common attributes it is given. *)
Definition Leaf : Type := string * YamlNode * YamlMap.

(** The inserter that only records the calls made to it. *)
Definition recordLeaf (name : string) (typeYaml : YamlNode)
    (commonAttrsYaml : YamlMap) (calls : list Leaf) : result (list Leaf) :=
  Ok (calls ++ [(name, typeYaml, commonAttrsYaml)])%list.

(** The inserter called on each of [leaves] in turn. *)
Fixpoint insertAll {Acc} (inserter : string -> YamlNode -> YamlMap -> Acc -> result Acc)
    (leaves : list Leaf) (acc : Acc) : result Acc :=
  match leaves with
  | [] => Ok acc
  | (name, typeYaml, commonAttrsYaml) :: rest =>
      acc' ← inserter name typeYaml commonAttrsYaml acc;
      insertAll inserter rest acc'
  end.

(** A computation followed by the exception [raised], if any. *)
Definition thenRaise {A} (r : result A) (raised : option exn) : result A :=
  a ← r;
  match raised with
  | None => Ok a
  | Some e => Throw e
  end.

(** Two runs of calls one after the other: the calls of the second
    follow those of the first, unless the first ends in an exception. *)
Definition andThen (a b : list Leaf * option exn) : list Leaf * option exn :=
  match a.2 with
  | None => (a.1 ++ b.1, b.2)%list
  | Some _ => a
  end.

(** The leaves of a block, read off the document: a block with one
    pair is one leaf, with the common attributes in force; a grouping
    directive has the leaves of the blocks under [+on], from first to
    last, each with the [+set] map as its common attributes; the second
    component is the exception at the first block that is not an entry,
    where the reading stops. *)
Fixpoint blockLeaves (block : YamlNode) (common : YamlMap) {struct block}
  : list Leaf * option exn :=
  match block with
  | YMap [] => ([], Some (YamlException "Empty type entry"))
  | YMap [(name, typeYaml)] => ([(name, typeYaml, common)], None)
  | YMap [(k1, v1); (k2, v2)] =>
      let group (on set : YamlNode) : list Leaf * option exn :=
        match on with
        | YSequence entries =>
            match set with
            | YMap shared =>
                (fix below (l : YamlSequence) : list Leaf * option exn :=
                   match l with
                   | [] => ([], None)
                   | b :: rest => andThen (blockLeaves b shared) (below rest)
                   end) entries
            | _ => ([], Some (YamlException "map expected"))
            end
        | _ => ([], Some (YamlException "sequence expected"))
        end in
      if decide (k1 = "+on" /\ k2 = "+set") then group v1 v2
      else if decide (k1 = "+set" /\ k2 = "+on") then group v2 v1
      else ([], Some (YamlException
                        "Too many entries in the map, check indentation"))
  | YMap _ =>
      ([], Some (YamlException "Too many entries in the map, check indentation"))
  | _ => ([], Some (YamlException "map expected"))
  end.

(** The leaves of a sequence of blocks: those of its blocks, from
    first to last. *)
Fixpoint entriesLeaves (entries : YamlSequence) (common : YamlMap)
  : list Leaf * option exn :=
  match entries with
  | [] => ([], None)
  | block :: rest =>
      andThen (blockLeaves block common) (entriesLeaves rest common)
  end.

(** The format rules [mapType] goes through for [swaggerType]: those
    of the entries under that key, in the order of the table. *)
Definition formatsFor (swaggerType : string)
    (typesMap : list (string * list (string * TypeUsage)))
  : list (string * TypeUsage) :=
  flat_map (fun swTypePair =>
              if decide (swTypePair.1 = swaggerType) then swTypePair.2 else [])
           typesMap.

(** The first rule of a list whose pattern is the given format. *)
Fixpoint firstExact (formats : list (string * TypeUsage)) (swaggerFormat : string)
  : option TypeUsage :=
  match formats with
  | [] => None
  | (swFormat, tu) :: rest =>
      if decide (swFormat = swaggerFormat) then Some tu
      else firstExact rest swaggerFormat
  end.

(** The replacement text of the first identifier rule whose pattern
    is one of the two names. *)
Fixpoint firstLiteral (identifiers : list (string * string))
    (baseName scopedName : string) : option string :=
  match identifiers with
  | [] => None
  | (pattn, replacement) :: rest =>
      if decide (pattn = baseName \/ pattn = scopedName) then Some replacement
      else firstLiteral rest baseName scopedName
  end.

(** The patterns [loadStringMap] reports and skips, and what it stores
    for the others. *)
Definition rejected (pattern : string) : bool :=
  empty pattern
  || ((1 <? size pattern)%nat
      && negb (is_char (front pattern) slash)
      && is_char (back pattern) slash).

Definition storedPattern (pattern : string) : string :=
  if is_char (front pattern) slash && is_char (back pattern) slash
  then pop_back pattern else pattern.

(** The attribute values [addTypeAttributes] accepts. *)
Definition scalars (seq : YamlSequence) : Prop :=
  Forall (fun n => exists s, n = YScalar s) seq.

Definition wellFormedAttribute (attr : string * YamlNode) : Prop :=
  attr.1 = "type" \/
  match attr.2 with
  | YNull | YScalar _ => True
  | YSequence seq => scalars seq
  | YMap _ => False
  end.

(** The blocks [parseEntries] refuses outright. *)
Definition malformedBlock (block : YamlNode) : Prop :=
  match block with
  | YMap [] => True
  | YMap [_] => False
  | YMap [(k1, _); (k2, _)] =>
      ~ (k1 = "+on" /\ k2 = "+set") /\ ~ (k1 = "+set" /\ k2 = "+on")
  | YMap _ => True
  | _ => False
  end.

(** * Properties *)

Local Open Scope list_scope.

(** ** The fragment engine on a few inputs *)

Example search_plain : FragmentRegex.regex_search "int64" "t6" = Some true.
Proof. reflexivity. Qed.
Example search_star : FragmentRegex.regex_search "uint64" "i.*4" = Some true.
Proof. reflexivity. Qed.
Example search_miss : FragmentRegex.regex_search "int64" "x.*" = Some false.
Proof. reflexivity. Qed.
Example replace_plain :
  FragmentRegex.regex_replace "a_b_c/d_e" "_" "-" = Some "a-b-c/d-e".
Proof. reflexivity. Qed.
Example replace_anychar :
  FragmentRegex.regex_replace "x/abab" "a." "Z" = Some "x/ZZ".
Proof. reflexivity. Qed.

(** ** Auxiliary facts *)

Lemma bind_Ok {A B} (r : result A) (f : A -> result B) (b : B) :
  r ≫= f = Ok b -> exists a, r = Ok a /\ f a = Ok b.
Proof. destruct r as [a|e]; simpl; [eauto | discriminate]. Qed.

Lemma empty_false_iff (s : string) : empty s = false <-> s <> "".
Proof. destruct s; simpl; split; congruence. Qed.

Lemma marked (pattern : string) :
  negb (empty (String slash pattern))
  && is_char (front (String slash pattern)) slash = true.
Proof. reflexivity. Qed.

Ltac inv_bind H :=
  let a := fresh "a" in
  let Ha := fresh "Ha" in
  apply bind_Ok in H; destruct H as (a & Ha & H).

(** ** The grouping directive *)

(** On a [+on]/[+set] block, [parseBlock] is the recursive call of
    [parseEntries] on the [+on] sequence with the [+set] map as the
    common attributes, in either order of the two keys. *)
Lemma parseBlock_group {Acc} (inserter : string -> YamlNode -> YamlMap -> Acc -> result Acc)
    (entries : YamlSequence) (shared common : YamlMap) (acc : Acc) :
  parseBlock inserter (YMap [("+on", YSequence entries); ("+set", YMap shared)])
    common acc
  = parseEntries inserter entries shared acc /\
  parseBlock inserter (YMap [("+set", YMap shared); ("+on", YSequence entries)])
    common acc
  = parseEntries inserter entries shared acc.
Proof.
  split; simpl; revert acc;
    induction entries as [|block rest IH]; intros acc; simpl; try done;
    destruct (parseBlock inserter block shared acc); simpl; auto.
Qed.

(** ** The fallback chain of mapType *)

Lemma fallbackName_hint (ty fmt bn : string) :
  bn <> "" -> fallbackName ty fmt bn = bn.
Proof. intros H. unfold fallbackName. by apply empty_false_iff in H as ->. Qed.

Lemma fallbackName_format (ty fmt : string) :
  fmt <> "" -> fallbackName ty fmt "" = fmt.
Proof. intros H. unfold fallbackName; simpl. by apply empty_false_iff in H as ->. Qed.

Lemma fallbackName_type (ty : string) : fallbackName ty "" "" = ty.
Proof. reflexivity. Qed.

Lemma fallbackName_empty (ty fmt bn : string) :
  fallbackName ty fmt bn = "" <-> ty = "" /\ fmt = "" /\ bn = "".
Proof.
  unfold fallbackName. destruct bn, fmt; simpl; split;
    try discriminate; try tauto; intros (? & ? & ?); discriminate.
Qed.

Section TypeResolverFacts.
Variable regex_search : string -> string -> option bool.

Lemma mapType_Ok tm ty fmt bn tu :
  mapType regex_search tm ty fmt bn = Ok tu ->
  exists found,
    scanTypes regex_search tm ty fmt = Ok found /\
    tu = set_baseName (fallbackName ty fmt bn) (default (TypeUsage_of "") found).
Proof.
  unfold mapType. intros H. inv_bind H. exists a. split; [done | congruence].
Qed.

Lemma formatMatches_exact fmt :
  formatMatches regex_search fmt fmt = Ok true.
Proof. unfold formatMatches. by rewrite decide_True. Qed.

Lemma formatMatches_regex pattern fmt :
  regex_search fmt pattern = Some true ->
  formatMatches regex_search (String slash pattern) fmt = Ok true.
Proof.
  intros H. unfold formatMatches. case_decide; [done |].
  rewrite marked. simpl. by rewrite H.
Qed.

Lemma formatMatches_returns swFormat fmt :
  (forall s p, is_Some (regex_search s p)) ->
  returns (formatMatches regex_search swFormat fmt).
Proof.
  intros Htotal. unfold formatMatches, returns.
  case_decide; [eauto |].
  destruct (negb (empty swFormat) && is_char (front swFormat) slash); [| eauto].
  destruct (Htotal fmt (after_marker swFormat)) as [b ->]. simpl; eauto.
Qed.

Lemma scanFormats_returns formats fmt :
  (forall s p, is_Some (regex_search s p)) ->
  returns (scanFormats regex_search formats fmt).
Proof.
  intros Htotal. induction formats as [|[p tu] rest IH]; simpl.
  - by eexists.
  - destruct (formatMatches_returns p fmt Htotal) as [[|] ->]; simpl;
      [by eexists | exact IH].
Qed.

Lemma scanTypes_returns tm ty fmt :
  (forall s p, is_Some (regex_search s p)) ->
  returns (scanTypes regex_search tm ty fmt).
Proof.
  intros Htotal. induction tm as [|[k fs] rest IH]; simpl.
  - by eexists.
  - case_decide; [| exact IH].
    destruct (scanFormats_returns fs fmt Htotal) as [[tu|] ->]; simpl;
      [by eexists | exact IH].
Qed.

(** Rules that do not match are passed over. *)
Lemma scanFormats_skip fpre rest fmt :
  (forall p tu, In (p, tu) fpre ->
     formatMatches regex_search p fmt = Ok false) ->
  scanFormats regex_search (fpre ++ rest) fmt
  = scanFormats regex_search rest fmt.
Proof.
  induction fpre as [|[p tu] fpre IH]; intros Hno; simpl; [done |].
  rewrite (Hno p tu) by (left; done). simpl.
  apply IH. intros p' tu' Hin. apply (Hno p' tu'). by right.
Qed.

Lemma scanFormats_none fs fmt :
  (forall p tu, In (p, tu) fs ->
     formatMatches regex_search p fmt = Ok false) ->
  scanFormats regex_search fs fmt = Ok None.
Proof.
  intros Hno. rewrite <- (app_nil_r fs). by rewrite scanFormats_skip.
Qed.

Lemma scanTypes_skip pre rest ty fmt :
  (forall k fs p tu, In (k, fs) pre -> k = ty -> In (p, tu) fs ->
     formatMatches regex_search p fmt = Ok false) ->
  scanTypes regex_search (pre ++ rest) ty fmt
  = scanTypes regex_search rest ty fmt.
Proof.
  induction pre as [|[k fs] pre IH]; intros Hno; simpl; [done |].
  assert (Hpre : scanTypes regex_search (pre ++ rest) ty fmt
                 = scanTypes regex_search rest ty fmt).
  { apply IH. intros k' fs' p tu Hin. apply (Hno k' fs' p tu). by right. }
  case_decide as Hk; [| exact Hpre].
  rewrite scanFormats_none; [exact Hpre |].
  intros p tu Hin. apply (Hno k fs p tu); [by left | done | done].
Qed.

Lemma scanTypes_first pre fpre p tu fpost post ty fmt :
  (forall k fs p' tu', In (k, fs) pre -> k = ty -> In (p', tu') fs ->
     formatMatches regex_search p' fmt = Ok false) ->
  (forall p' tu', In (p', tu') fpre ->
     formatMatches regex_search p' fmt = Ok false) ->
  formatMatches regex_search p fmt = Ok true ->
  scanTypes regex_search (pre ++ (ty, fpre ++ (p, tu) :: fpost) :: post) ty fmt
  = Ok (Some tu).
Proof.
  intros Hpre Hfpre Hhit. rewrite scanTypes_skip by exact Hpre. simpl.
  rewrite decide_True by done.
  rewrite scanFormats_skip by exact Hfpre. simpl. by rewrite Hhit.
Qed.

End TypeResolverFacts.

Lemma not_marked (pattn : string) :
  front pattn <> Some slash ->
  negb (empty pattn) && is_char (front pattn) slash = false.
Proof.
  intros H. destruct pattn as [|c s]; simpl; [done |].
  destruct (Ascii.eqb_spec c slash) as [->|]; [by destruct H | done].
Qed.

(** Either every rule is passed over, or there is a first one that
    is not. *)
Lemma first_deciding_rule (ids : list (string * string)) (bn sn : string) :
  Forall (passes bn sn) ids \/
  exists pre pattn replacement post,
    ids = pre ++ (pattn, replacement) :: post /\
    Forall (passes bn sn) pre /\
    (front pattn = Some slash \/ pattn = bn \/ pattn = sn).
Proof.
  induction ids as [|[q r] ids IH]; [by left |].
  destruct (decide (front q = Some slash)) as [Hq|Hq];
    [right; exists [], q, r, ids; auto |].
  destruct (decide (q = bn)) as [Hbn|Hbn];
    [right; exists [], q, r, ids; auto |].
  destruct (decide (q = sn)) as [Hsn|Hsn];
    [right; exists [], q, r, ids; auto |].
  assert (Hpass : passes bn sn (q, r)) by done.
  destruct IH as [Hall | (pre & p & r' & post & -> & Hpre & Hp)].
  - left. by constructor.
  - right. exists ((q, r) :: pre), p, r', post. auto.
Qed.

Section IdentifierResolverFacts.
Variable regex_replace : string -> string -> string -> option string.

Lemma scanIdentifiers_skip pre rest bn sn :
  Forall (passes bn sn) pre ->
  scanIdentifiers regex_replace (pre ++ rest) bn sn
  = scanIdentifiers regex_replace rest bn sn.
Proof.
  induction 1 as [|[q r] pre (Hq & Hbn & Hsn) _ IH]; simpl; [done |].
  simpl in Hq, Hbn, Hsn. rewrite not_marked by done.
  rewrite decide_False by tauto. exact IH.
Qed.
End IdentifierResolverFacts.

(** ** The type resolver *)

(** C1: the [baseName] of every [TypeUsage] that [mapType] returns is
    the hint [baseName] when that is not empty, else [swaggerFormat]
    when that is not empty, else [swaggerType]; when a rule matched,
    the result is that rule's [TypeUsage] with its recorded name
    replaced by the chain's; and [mapType] returns whenever the regular
    expression library does not throw. *)
Theorem mapType_baseName_chain :
  forall regex_search tm swaggerType swaggerFormat baseName0,
    (forall tu,
        mapType regex_search tm swaggerType swaggerFormat baseName0 = Ok tu ->
        (baseName0 <> "" -> baseName tu = baseName0) /\
        (baseName0 = "" -> swaggerFormat <> "" -> baseName tu = swaggerFormat) /\
        (baseName0 = "" -> swaggerFormat = "" -> baseName tu = swaggerType)) /\
    (forall stored,
        scanTypes regex_search tm swaggerType swaggerFormat = Ok (Some stored) ->
        mapType regex_search tm swaggerType swaggerFormat baseName0
        = Ok {| baseName := fallbackName swaggerType swaggerFormat baseName0;
                attributes := attributes stored;
                lists := lists stored |}) /\
    ((forall s p, is_Some (regex_search s p)) ->
     returns (mapType regex_search tm swaggerType swaggerFormat baseName0)).
Proof.
  intros rs tm ty fmt bn. split; [| split].
  - intros tu H. apply mapType_Ok in H as (found & _ & ->). simpl.
    split; [| split].
    + apply fallbackName_hint.
    + intros ->. apply fallbackName_format.
    + intros -> ->. apply fallbackName_type.
  - intros stored H. unfold mapType. by rewrite H.
  - intros Htotal. unfold mapType.
    destruct (scanTypes_returns rs tm ty fmt Htotal) as [found ->]. simpl.
    by eexists.
Qed.

Lemma mapType_baseName_chain_witness :
  mapType FragmentRegex.regex_search long_table "integer" "int64" ""
  = Ok (set_baseName "int64" (TypeUsage_of "long")) /\
  baseName (set_baseName "int64" (TypeUsage_of "long")) = "int64".
Proof.
  split; [reflexivity |].
  destruct (mapType_baseName_chain FragmentRegex.regex_search long_table
              "integer" "int64" "") as [H _].
  destruct (H _ eq_refl) as (_ & Hfmt & _).
  apply Hfmt; [reflexivity | discriminate].
Defined.

(** C5, as stated, fails: with an empty type, an empty format and an
    empty hint the returned [baseName] is empty. *)
Lemma mapType_baseName_may_be_empty :
  mapType FragmentRegex.regex_search [] "" "" "" = Ok (TypeUsage_of "") /\
  baseName (TypeUsage_of "") = "".
Proof. split; reflexivity. Qed.

(** C5, amended: the [baseName] of every [TypeUsage] that [mapType]
    returns is non-empty exactly when [swaggerType], [swaggerFormat]
    and the hint [baseName] are not all empty. *)
Theorem mapType_baseName_nonempty :
  forall regex_search tm swaggerType swaggerFormat baseName0 tu,
    mapType regex_search tm swaggerType swaggerFormat baseName0 = Ok tu ->
    (baseName tu <> "" <->
     swaggerType <> "" \/ swaggerFormat <> "" \/ baseName0 <> "").
Proof.
  intros rs tm ty fmt bn tu H.
  apply mapType_Ok in H as (found & _ & ->). simpl.
  rewrite fallbackName_empty.
  destruct (decide (ty = "")), (decide (fmt = "")), (decide (bn = "")); tauto.
Qed.

Lemma mapType_baseName_nonempty_witness :
  mapType FragmentRegex.regex_search long_table "integer" "" ""
  = Ok (TypeUsage_of "integer") /\
  (baseName (TypeUsage_of "integer") <> "" <->
   "integer" <> "" \/ "" <> "" \/ "" <> "").
Proof.
  split; [reflexivity |].
  apply (mapType_baseName_nonempty FragmentRegex.regex_search long_table
           "integer" "" "" (TypeUsage_of "integer")).
  reflexivity.
Defined.



(** ** A sequence-form type entry, loaded and queried *)

Lemma fragment_empty_pattern_matches :
  empty_pattern_matches FragmentRegex.regex_search.
Proof. intros subject. by destruct subject. Qed.

Lemma fragment_dot_star_matches (subject : string) :
  FragmentRegex.regex_search subject ".*" = Some true.
Proof.
  unfold FragmentRegex.regex_search. simpl.
  assert (Hstar : forall s,
             is_Some (FragmentRegex.match_here [(FragmentRegex.AnyChar, true)] s)).
  { induction s as [|c s [left Hleft]]; simpl; [by eexists |].
    simpl in Hleft. rewrite Hleft.
    destruct (negb (FragmentRegex.line_terminator c)); by eexists. }
  destruct subject as [|c s]; simpl FragmentRegex.search_from.
  - done.
  - destruct (Hstar (String c s)) as [left Hleft].
    simpl in Hleft. by rewrite Hleft.
Qed.

(** C2, as stated, fails: with the format [int64] the scan stops at the
    first entry, the one stored under [/], and not at the second. *)
Lemma int64_selects_universal_entry :
  parseTypeEntry int_formats_yaml [] = Ok int_formats /\
  int_formats !! 1%nat = Some ("int64", TypeUsage_of "int64") /\
  scanTypes FragmentRegex.regex_search [("integer", int_formats)]
    "integer" "int64" = Ok (Some (TypeUsage_of "int32")) /\
  TypeUsage_of "int32" <> TypeUsage_of "int64".
Proof. repeat split; try reflexivity. discriminate. Qed.

(** C2, amended: the configuration is parsed into the two rules [/]
    and [int64], in this order; the query with the empty format selects
    the first entry, and so does the query with the format [int64],
    because the pattern behind the marker of [/] is the empty regular
    expression. *)
Theorem sequence_form_roundtrip :
  forall regex_search swaggerType,
    empty_pattern_matches regex_search ->
    parseTypeEntry int_formats_yaml [] = Ok int_formats /\
    loadTypesMap [YMap [(swaggerType, int_formats_yaml)]]
    = Ok [(swaggerType, int_formats)] /\
    scanTypes regex_search [(swaggerType, int_formats)] swaggerType ""
    = Ok (Some (TypeUsage_of "int32")) /\
    scanTypes regex_search [(swaggerType, int_formats)] swaggerType "int64"
    = Ok (Some (TypeUsage_of "int32")).
Proof.
  intros rs ty Hempty. split; [reflexivity |]. split; [reflexivity |].
  assert (Hhit : forall fmt, scanTypes rs [(ty, int_formats)] ty fmt
                             = Ok (Some (TypeUsage_of "int32"))).
  { intros fmt.
    pose proof (scanTypes_first rs [] [] "/" (TypeUsage_of "int32")
                  [("int64", TypeUsage_of "int64")] [] ty fmt) as Hfirst.
    simpl app in Hfirst. apply Hfirst; try done.
    apply formatMatches_regex, Hempty. }
  split; apply Hhit.
Qed.

Lemma sequence_form_roundtrip_witness :
  empty_pattern_matches FragmentRegex.regex_search /\
  scanTypes FragmentRegex.regex_search [("integer", int_formats)] "integer" "int64"
  = Ok (Some (TypeUsage_of "int32")).
Proof.
  split; [exact fragment_empty_pattern_matches |].
  apply (sequence_form_roundtrip FragmentRegex.regex_search "integer"
           fragment_empty_pattern_matches).
Defined.

(** With the two entries declared the other way round, each query
    selects the entry of its format. *)
Lemma specific_entry_first :
  forall regex_search swaggerType,
    empty_pattern_matches regex_search ->
    let formats := [("int64", TypeUsage_of "int64"); ("/", TypeUsage_of "int32")] in
    scanTypes regex_search [(swaggerType, formats)] swaggerType "int64"
    = Ok (Some (TypeUsage_of "int64")) /\
    scanTypes regex_search [(swaggerType, formats)] swaggerType ""
    = Ok (Some (TypeUsage_of "int32")).
Proof.
  intros rs ty Hempty formats. split.
  - pose proof (scanTypes_first rs [] [] "int64" (TypeUsage_of "int64")
                  [("/", TypeUsage_of "int32")] [] ty "int64") as Hfirst.
    simpl app in Hfirst.
    apply Hfirst; first [apply formatMatches_exact | done].
  - pose proof (scanTypes_first rs [] [("int64", TypeUsage_of "int64")] "/"
                  (TypeUsage_of "int32") [] [] ty "") as Hfirst.
    simpl app in Hfirst. apply Hfirst; try done.
    + intros p tu [[= <- <-] | []]. unfold formatMatches.
      by rewrite decide_False.
    + apply formatMatches_regex, Hempty.
Qed.

(** ** The identifier resolver *)

(** C4: with [scopedName = scope + "/" + baseName], the rules are
    scanned in declaration order; the first rule that is not passed
    over decides: a rule whose pattern begins with [/] yields the
    regex substitution over the whole [scopedName] with the pattern
    behind the marker, whatever that substitution returns; a rule whose
    pattern is [baseName] or [scopedName] yields its replacement text;
    when every rule is passed over the result is [baseName]; and one
    of these cases always applies. *)
Theorem mapIdentifier_scan :
  forall regex_replace identifiers baseName0 scope,
    let scopedName := (scope ++ "/" ++ baseName0)%string in
    (forall pre pattern replacement post,
        identifiers = pre ++ (String slash pattern, replacement) :: post ->
        Forall (passes baseName0 scopedName) pre ->
        mapIdentifier regex_replace identifiers baseName0 scope
        = regex_result (regex_replace scopedName pattern replacement)) /\
    (forall pre pattn replacement post,
        identifiers = pre ++ (pattn, replacement) :: post ->
        Forall (passes baseName0 scopedName) pre ->
        front pattn <> Some slash ->
        pattn = baseName0 \/ pattn = scopedName ->
        mapIdentifier regex_replace identifiers baseName0 scope
        = Ok replacement) /\
    (Forall (passes baseName0 scopedName) identifiers ->
     mapIdentifier regex_replace identifiers baseName0 scope = Ok baseName0) /\
    (Forall (passes baseName0 scopedName) identifiers \/
     exists pre pattn replacement post,
       identifiers = pre ++ (pattn, replacement) :: post /\
       Forall (passes baseName0 scopedName) pre /\
       (front pattn = Some slash \/ pattn = baseName0 \/ pattn = scopedName)).
Proof.
  intros rr ids bn scope sn. unfold mapIdentifier.
  change (scopedName_of scope bn) with sn.
  split; [| split; [| split; [| apply first_deciding_rule]]].
  - intros pre pattern r post -> Hpre.
    rewrite scanIdentifiers_skip by done. reflexivity.
  - intros pre pattn r post -> Hpre Hlit Heq.
    rewrite scanIdentifiers_skip by done. simpl.
    rewrite not_marked by done. by rewrite decide_True.
  - intros Hall. rewrite <- (app_nil_r ids).
    by rewrite scanIdentifiers_skip.
Qed.

Lemma mapIdentifier_scan_witness :
  Forall (passes "a_b" "s/a_b") [("Id", "Identifier")] /\
  mapIdentifier FragmentRegex.regex_replace
    [("Id", "Identifier"); ("/_", "-"); ("a_b", "ab")] "a_b" "s"
  = Ok "s/a-b".
Proof.
  assert (Hpre : Forall (passes "a_b" "s/a_b") [("Id", "Identifier")]).
  { repeat constructor; simpl; discriminate. }
  split; [exact Hpre |].
  destruct (mapIdentifier_scan FragmentRegex.regex_replace
              [("Id", "Identifier"); ("/_", "-"); ("a_b", "ab")] "a_b" "s")
    as [H _].
  apply (H [("Id", "Identifier")] "_" "-" [("a_b", "ab")] eq_refl Hpre).
Defined.

(** ** Loading the identifier and substitution rules *)

Lemma back_pop_back (s : string) (c : ascii) :
  back s = Some c -> s = (pop_back s ++ String c "")%string.
Proof.
  induction s as [|a s IH]; simpl; [discriminate |].
  destruct s as [|b s]; [by intros [= ->] |].
  intros H.
  change (String a (String b s)
          = String a (pop_back (String b s) ++ String c "")%string).
  f_equal. by apply IH.
Qed.

Lemma front_pop_back (s : string) :
  1 < size s -> front (pop_back s) = front s.
Proof. destruct s as [|a [|b s]]; simpl; [lia | lia | done]. Qed.

Lemma is_char_Some (o : option ascii) (c : ascii) :
  is_char o c = true <-> o = Some c.
Proof.
  destruct o as [d|]; simpl; [| split; discriminate].
  destruct (Ascii.eqb_spec d c); split; congruence.
Qed.

Lemma is_char_not (o : option ascii) (c : ascii) :
  is_char o c = false <-> o <> Some c.
Proof.
  rewrite <- is_char_Some. destruct (is_char o c); split; congruence.
Qed.

Lemma size_nonempty (s : string) : 1 < size s -> empty s = false.
Proof. destruct s; simpl; [lia | done]. Qed.

(** C8, as stated, fails: the pattern [/] begins and ends with ['/'],
    and what is stored for it is the empty string, which has no leading
    ['/']. *)
Lemma lone_slash_loses_marker :
  front "/" = Some slash /\ back "/" = Some slash /\
  loadStringMap [("/", YScalar "x")]
  = Ok {| clog := []; stringMap := [("", "x")] |} /\
  front "" = None.
Proof. repeat split; reflexivity. Qed.

(** C8, amended: at any point of the loading, an empty pattern, and a
    pattern longer than one character that ends with ['/'] and does not
    begin with ['/'], each add a diagnostic, leave the table as it is
    and let the loading go on with the entries that follow; a pattern
    longer than one character that begins and ends with ['/'] is stored
    without its last character, which is that ['/'], and still begins
    with ['/']. *)
Theorem loadStringMap_patterns :
  forall st rest,
    (forall value,
        loadStringMap_from st (("", value) :: rest)
        = loadStringMap_from
            {| clog := clog st ++ [warn_empty_pattern];
               stringMap := stringMap st |} rest) /\
    (forall pattern value,
        1 < size pattern ->
        front pattern <> Some slash ->
        back pattern = Some slash ->
        loadStringMap_from st ((pattern, value) :: rest)
        = loadStringMap_from
            {| clog := clog st ++ [warn_invalid_regex];
               stringMap := stringMap st |} rest) /\
    (forall pattern replacement,
        1 < size pattern ->
        front pattern = Some slash ->
        back pattern = Some slash ->
        loadStringMap_from st ((pattern, YScalar replacement) :: rest)
        = loadStringMap_from
            {| clog := clog st;
               stringMap := stringMap st ++ [(pop_back pattern, replacement)] |}
            rest /\
        pattern = (pop_back pattern ++ "/")%string /\
        front (pop_back pattern) = Some slash).
Proof.
  intros st rest. split; [| split].
  - reflexivity.
  - intros pattern value Hsize Hfront Hback.
    simpl. unfold loadSubst. simpl.
    rewrite (size_nonempty _ Hsize).
    apply Nat.ltb_lt in Hsize as ->.
    apply is_char_not in Hfront as ->.
    apply is_char_Some in Hback as ->. reflexivity.
  - intros pattern replacement Hsize Hfront Hback. split; [| split].
    + simpl. unfold loadSubst. simpl.
      rewrite (size_nonempty _ Hsize).
      apply is_char_Some in Hfront as ->.
      apply is_char_Some in Hback as ->.
      rewrite andb_false_r. reflexivity.
    + by apply back_pop_back.
    + by rewrite front_pop_back.
Qed.

Lemma loadStringMap_patterns_witness :
  (1 < size "abc/" /\ front "abc/" <> Some slash /\ back "abc/" = Some slash) /\
  loadStringMap_from
    {| clog := [warn_empty_pattern]; stringMap := [] |}
    (("abc/", YNull) :: [("/a.c/", YScalar "x"); ("Id", YScalar "Identifier")])
  = loadStringMap_from
      {| clog := [warn_empty_pattern; warn_invalid_regex]; stringMap := [] |}
      [("/a.c/", YScalar "x"); ("Id", YScalar "Identifier")].
Proof.
  assert (Hsize : 1 < size "abc/") by (simpl; lia).
  assert (Hfront : front "abc/" <> Some slash) by discriminate.
  assert (Hback : back "abc/" = Some slash) by reflexivity.
  split; [done |].
  destruct (loadStringMap_patterns
              {| clog := [warn_empty_pattern]; stringMap := [] |}
              [("/a.c/", YScalar "x"); ("Id", YScalar "Identifier")])
    as (_ & H & _).
  exact (H "abc/" YNull Hsize Hfront Hback).
Defined.

(** The whole list: two diagnostics, and the two valid rules behind
    the rejected ones in the table. *)
Example loadStringMap_sample :
  loadStringMap sample_rules
  = Ok {| clog := [warn_empty_pattern; warn_invalid_regex];
          stringMap := [("/a.c", "x"); ("Id", "Identifier")] |}.
Proof. reflexivity. Qed.

(** C9: the one-character pattern [/] is loaded without a diagnostic
    and stored as the empty string; in [mapIdentifier] a rule with the
    empty pattern never reaches the regex substitution, and when the
    scan arrives at it, it yields its replacement text if [baseName] is
    empty and is passed over otherwise. *)
Theorem lone_slash_pattern :
  forall replacement,
    (forall st rest,
        loadStringMap_from st (("/", YScalar replacement) :: rest)
        = loadStringMap_from
            {| clog := clog st;
               stringMap := stringMap st ++ [("", replacement)] |} rest) /\
    loadStringMap [("/", YScalar replacement)]
    = Ok {| clog := []; stringMap := [("", replacement)] |} /\
    (forall regex_replace pre rest baseName0 scope,
        Forall (passes baseName0 (scope ++ "/" ++ baseName0)%string) pre ->
        mapIdentifier regex_replace (pre ++ ("", replacement) :: rest)
          baseName0 scope
        = if decide (baseName0 = "") then Ok replacement
          else mapIdentifier regex_replace rest baseName0 scope).
Proof.
  intros r. split; [done |]. split; [done |].
  intros rr pre rest bn scope Hpre. unfold mapIdentifier.
  change (scopedName_of scope bn) with (scope ++ "/" ++ bn)%string.
  rewrite scanIdentifiers_skip by done. simpl.
  destruct (decide (bn = "")) as [->|Hbn].
  - by rewrite decide_True by (by left).
  - rewrite decide_False; [done |].
    intros [Heq | Heq]; [done |]. by destruct scope.
Qed.

Lemma lone_slash_pattern_witness :
  Forall (passes "" "s/") [("Id", "Identifier")] /\
  mapIdentifier FragmentRegex.regex_replace
    [("Id", "Identifier"); ("", "anonymous"); ("/_", "-")] "" "s"
  = Ok "anonymous".
Proof.
  assert (Hpre : Forall (passes "" "s/") [("Id", "Identifier")]).
  { repeat constructor; simpl; discriminate. }
  split; [exact Hpre |].
  destruct (lone_slash_pattern "anonymous") as (_ & _ & H).
  exact (H FragmentRegex.regex_replace [("Id", "Identifier")] [("/_", "-")]
           "" "s" Hpre).
Defined.

(** ** The attribute merger *)

Lemma emplace_union {V} (k : string) (v : V) (m : gmap string V) :
  emplace k v m = m ∪ {[k := v]}.
Proof.
  unfold emplace. apply map_eq. intros j.
  rewrite lookup_union.
  destruct (decide (k = j)) as [<-|Hne].
  - rewrite lookup_singleton_eq.
    destruct (m !! k) as [w|] eqn:Hk; rewrite ?Hk; simpl; [done |].
    by rewrite lookup_insert_eq.
  - rewrite lookup_singleton_ne by done.
    destruct (m !! k) as [w|] eqn:Hk.
    + by destruct (m !! j).
    + rewrite lookup_insert_ne by done. by destruct (m !! j).
Qed.

Lemma emplace_keeps {V} (k j : string) (v w : V) (m : gmap string V) :
  m !! j = Some w -> emplace k v m !! j = Some w.
Proof.
  intros Hj. rewrite emplace_union. by apply lookup_union_Some_l.
Qed.

Lemma emplace_other {V} (k j : string) (v : V) (m : gmap string V) :
  k <> j -> emplace k v m !! j = m !! j.
Proof.
  intros Hne. rewrite emplace_union, lookup_union.
  rewrite lookup_singleton_ne by done. by destruct (m !! j).
Qed.

Lemma emplace_fresh {V} (k : string) (v : V) (m : gmap string V) :
  m !! k = None -> emplace k v m !! k = Some v.
Proof. intros Hk. unfold emplace. rewrite Hk. apply lookup_insert_eq. Qed.

(** What one pair does to a [TypeUsage]. *)
Lemma addTypeAttribute_Ok tu attr tu' :
  addTypeAttribute tu attr = Ok tu' ->
  baseName tu' = baseName tu /\
  ((attr.1 = "type" /\ tu' = tu) \/
   (attr.1 <> "type" /\
    ((attr.2 = YNull /\
      attributes tu' = emplace attr.1 "" (attributes tu) /\
      lists tu' = lists tu) \/
     (exists s, attr.2 = YScalar s /\
        attributes tu' = emplace attr.1 s (attributes tu) /\
        lists tu' = lists tu) \/
     (exists seq strs, attr.2 = YSequence seq /\ asStrings seq = Ok strs /\
        attributes tu' = attributes tu /\
        lists tu' = emplace attr.1 strs (lists tu))))).
Proof.
  unfold addTypeAttribute. destruct attr as [k v]; simpl.
  case_decide as Hk; [intros [= <-]; eauto |].
  destruct v as [|s|seq|m]; try discriminate.
  - intros [= <-]; simpl. split; [done |]. right. split; [done |]. by left.
  - intros [= <-]; simpl. split; [done |]. right. split; [done |].
    right; left. eauto.
  - intros H. inv_bind H. injection H as <-; simpl.
    split; [done |]. right. split; [done |]. right; right. eauto 10.
Qed.

(** Whether a map can be applied does not depend on the [TypeUsage]
    it is applied to, and what it adds is what it adds to an empty
    one, behind what was there. *)
Lemma addTypeAttributes_union m :
  forall tu e e' (A : gmap string string) (L : gmap string (list string)),
    addTypeAttributes e m = Ok e' ->
    attributes tu = A ∪ attributes e ->
    lists tu = L ∪ lists e ->
    addTypeAttributes tu m
    = Ok {| baseName := baseName tu;
            attributes := A ∪ attributes e';
            lists := L ∪ lists e' |}.
Proof.
  induction m as [|[k v] m IH]; intros tu e e' A L He HA HL; simpl in *.
  - injection He as <-. destruct tu; simpl in *. by subst.
  - inv_bind He. unfold addTypeAttribute in *. simpl in *.
    case_decide as Hk.
    + injection Ha as <-. by apply (IH tu e).
    + destruct v as [|s|seq|m']; try discriminate.
      * injection Ha as <-. simpl.
        erewrite IH; [done | exact He | |]; simpl; [| done].
        rewrite !emplace_union, HA. by rewrite (assoc_L (∪)).
      * injection Ha as <-. simpl.
        erewrite IH; [done | exact He | |]; simpl; [| done].
        rewrite !emplace_union, HA. by rewrite (assoc_L (∪)).
      * inv_bind Ha. injection Ha as <-. rewrite Ha0. simpl.
        erewrite IH; [done | exact He | |]; simpl; [done |].
        rewrite !emplace_union, HL. by rewrite (assoc_L (∪)).
Qed.

Lemma addTypeAttributes_baseName m :
  forall tu tu', addTypeAttributes tu m = Ok tu' -> baseName tu' = baseName tu.
Proof.
  induction m as [|attr m IH]; intros tu tu' H; simpl in H.
  - by injection H as <-.
  - inv_bind H. apply addTypeAttribute_Ok in Ha as [Hname _].
    rewrite (IH _ _ H). exact Hname.
Qed.

(** Nothing is ever stored under the key [type]. *)
Lemma addTypeAttributes_type m :
  forall tu tu',
    addTypeAttributes tu m = Ok tu' ->
    attributes tu' !! "type" = attributes tu !! "type" /\
    lists tu' !! "type" = lists tu !! "type".
Proof.
  induction m as [|attr m IH]; intros tu tu' H; simpl in H.
  - by injection H as <-.
  - inv_bind H. destruct (IH _ _ H) as [-> ->].
    apply addTypeAttribute_Ok in Ha as [_ [[_ ->] | [Hk Hcase]]]; [done |].
    destruct Hcase as [(_ & -> & ->) | [(s & _ & -> & ->) | (seq & strs & _ & _ & -> & ->)]];
      by rewrite ?emplace_other.
Qed.

(** What is stored stays as it is. *)
Lemma addTypeAttributes_keeps m :
  forall tu tu',
    addTypeAttributes tu m = Ok tu' ->
    (forall k v, attributes tu !! k = Some v -> attributes tu' !! k = Some v) /\
    (forall k l, lists tu !! k = Some l -> lists tu' !! k = Some l).
Proof.
  induction m as [|attr m IH]; intros tu tu' H; simpl in H.
  - by injection H as <-.
  - inv_bind H. destruct (IH _ _ H) as [IHa IHl].
    apply addTypeAttribute_Ok in Ha as [_ [[_ ->] | [Hk Hcase]]]; [done |].
    destruct Hcase as [(_ & Ha' & Hl') | [(s & _ & Ha' & Hl') | (seq & strs & _ & _ & Ha' & Hl')]];
      split; intros k w Hw; first [apply IHa | apply IHl];
      rewrite ?Ha', ?Hl'; first [by apply emplace_keeps | done].
Qed.

(** The first pair under a key other than [type] decides what the key
    gets in the container of its kind, when the key is not there yet. *)
Lemma addTypeAttributes_first m :
  forall tu tu' k,
    addTypeAttributes tu m = Ok tu' ->
    k <> "type" ->
    (attributes tu !! k = None ->
     (at_key k m = Some YNull -> attributes tu' !! k = Some "") /\
     (forall s, at_key k m = Some (YScalar s) -> attributes tu' !! k = Some s)) /\
    (lists tu !! k = None ->
     forall seq, at_key k m = Some (YSequence seq) ->
       exists strs, asStrings seq = Ok strs /\ lists tu' !! k = Some strs).
Proof.
  induction m as [|[k0 v0] m IH]; intros tu tu' k H Hk; simpl in H.
  - split; [intros _; split |]; simpl; intros; discriminate.
  - inv_bind H. simpl.
    destruct (addTypeAttributes_keeps _ _ _ H) as [Keepa Keepl].
    destruct (IH _ _ k H Hk) as [IHa IHl].
    apply addTypeAttribute_Ok in Ha as [_ Hstep]. simpl in Hstep.
    destruct (decide (k0 = k)) as [->|Hne].
    + destruct Hstep as [[Heq _] | [_ Hcase]]; [done |].
      destruct Hcase as [(-> & Ha' & Hl') | [(s & -> & Ha' & Hl') | (seq & strs & -> & Hs & Ha' & Hl')]].
      * split; [intros Hnone; split |]; [| intros s [=] | intros _ seq [=]].
        intros _. apply Keepa. rewrite Ha'. by apply emplace_fresh.
      * split; [intros Hnone; split |]; [intros [=] | | intros _ seq [=]].
        intros s' [= <-]. apply Keepa. rewrite Ha'. by apply emplace_fresh.
      * split; [intros Hnone; split |]; [intros [=] | intros s [=] |].
        intros Hnone seq' [= <-]. exists strs. split; [done |].
        apply Keepl. rewrite Hl'. by apply emplace_fresh.
    + assert (attributes a !! k = attributes tu !! k /\
              lists a !! k = lists tu !! k) as [Ea El].
      { destruct Hstep as [[_ ->] | [_ Hcase]]; [done |].
        destruct Hcase as [(_ & -> & ->) | [(s & _ & -> & ->) | (seq & strs & _ & _ & -> & ->)]];
          by rewrite ?emplace_other. }
      rewrite <- Ea, <- El. by split.
Qed.

(** C7: applying an attribute map leaves whatever is under the key
    [type], in the attributes and in the lists, as it was, so it never
    creates an entry of that name; every other key of the map is in the
    attributes or in the lists afterwards, and a key that was not there
    gets the value of the first pair under it; the map
    [{"type": "string", "maxLength": 10}] sets the one attribute
    [maxLength]. *)
Theorem addTypeAttributes_skips_type :
  forall typeUsage attributesMap,
    (forall tu',
        addTypeAttributes typeUsage attributesMap = Ok tu' ->
        attributes tu' !! "type" = attributes typeUsage !! "type" /\
        lists tu' !! "type" = lists typeUsage !! "type" /\
        (forall k v, In (k, v) attributesMap -> k <> "type" ->
           is_Some (attributes tu' !! k) \/ is_Some (lists tu' !! k)) /\
        (forall k, k <> "type" -> attributes typeUsage !! k = None ->
           (at_key k attributesMap = Some YNull ->
            attributes tu' !! k = Some "") /\
           (forall s, at_key k attributesMap = Some (YScalar s) ->
              attributes tu' !! k = Some s)) /\
        (forall k seq, k <> "type" -> lists typeUsage !! k = None ->
           at_key k attributesMap = Some (YSequence seq) ->
           exists strs, asStrings seq = Ok strs /\
                        lists tu' !! k = Some strs)) /\
    addTypeAttributes (TypeUsage_of "")
      [("type", YScalar "string"); ("maxLength", YScalar "10")]
    = Ok {| baseName := ""; attributes := {[ "maxLength" := "10" ]};
            lists := ∅ |}.
Proof.
  intros tu m. split; [| reflexivity].
  intros tu' H.
  destruct (addTypeAttributes_type _ _ _ H) as [Ha Hl].
  split; [done |]. split; [done |]. split; [| split].
  - clear Ha Hl. revert tu tu' H.
    induction m as [|[k0 v0] m IH]; intros tu tu' H k v Hin Hk; [done |].
    simpl in H. inv_bind H.
    destruct Hin as [[= -> ->] | Hin]; [| by apply (IH _ _ H k v)].
    destruct (addTypeAttributes_keeps _ _ _ H) as [Keepa Keepl].
    apply addTypeAttribute_Ok in Ha as [_ [[Heq _] | [_ Hcase]]]; [done |].
    simpl in Hcase.
    destruct Hcase as [(_ & Ha' & _) | [(s & _ & Ha' & _) | (seq & strs & _ & _ & _ & Hl')]].
    + left. destruct (attributes tu !! k) as [w|] eqn:Hw.
      * exists w. apply Keepa. rewrite Ha'. by apply emplace_keeps.
      * eexists. apply Keepa. rewrite Ha'. by apply emplace_fresh.
    + left. destruct (attributes tu !! k) as [w|] eqn:Hw.
      * exists w. apply Keepa. rewrite Ha'. by apply emplace_keeps.
      * eexists. apply Keepa. rewrite Ha'. by apply emplace_fresh.
    + right. destruct (lists tu !! k) as [w|] eqn:Hw.
      * exists w. apply Keepl. rewrite Hl'. by apply emplace_keeps.
      * eexists. apply Keepl. rewrite Hl'. by apply emplace_fresh.
  - intros k Hk Hnone.
    by destruct (addTypeAttributes_first _ _ _ k H Hk) as [Hfirst _]; auto.
  - intros k seq Hk Hnone Hseq.
    destruct (addTypeAttributes_first _ _ _ k H Hk) as [_ Hfirst]; auto.
Qed.

Lemma addTypeAttributes_skips_type_witness :
  addTypeAttributes (TypeUsage_of "QString") shared_yaml
  = Ok {| baseName := "QString";
          attributes := {[ "avoidCopy" := "yes"; "moveOnly" := "" ]};
          lists := {[ "imports" := ["<string>"] ]} |} /\
  ({[ "avoidCopy" := "yes"; "moveOnly" := "" ]} : gmap string string) !! "type"
  = attributes (TypeUsage_of "QString") !! "type".
Proof.
  assert (H : addTypeAttributes (TypeUsage_of "QString") shared_yaml
              = Ok {| baseName := "QString";
                      attributes := {[ "avoidCopy" := "yes"; "moveOnly" := "" ]};
                      lists := {[ "imports" := ["<string>"] ]} |})
    by (vm_compute; reflexivity).
  split; [exact H |].
  destruct (addTypeAttributes_skips_type (TypeUsage_of "QString") shared_yaml)
    as [Hall _].
  exact (proj1 (Hall _ H)).
Defined.

(** C6: the attributes and lists of the entry itself are applied
    first and the shared ones second, each inserted only under a name
    that is not there yet; so the result has, under every name, what
    the entry has under it, and what the shared attributes give only
    where the entry has nothing, for the attributes and for the lists
    alike. *)
Theorem parseTargetType_entry_wins :
  forall yamlTypeNode commonAttributesYaml own shared,
    parseTargetType1 yamlTypeNode = Ok own ->
    addTypeAttributes (TypeUsage_of "") commonAttributesYaml = Ok shared ->
    exists tu,
      parseTargetType yamlTypeNode commonAttributesYaml = Ok tu /\
      addTypeAttributes own commonAttributesYaml = Ok tu /\
      baseName tu = baseName own /\
      attributes tu = attributes own ∪ attributes shared /\
      lists tu = lists own ∪ lists shared /\
      (forall k v, attributes own !! k = Some v -> attributes tu !! k = Some v) /\
      (forall k l, lists own !! k = Some l -> lists tu !! k = Some l) /\
      (forall k, attributes own !! k = None ->
                 attributes tu !! k = attributes shared !! k) /\
      (forall k, lists own !! k = None -> lists tu !! k = lists shared !! k).
Proof.
  intros node common own shared Hown Hshared.
  pose proof (addTypeAttributes_union common own (TypeUsage_of "") shared
                (attributes own) (lists own) Hshared) as Hmerge.
  simpl in Hmerge. rewrite !(right_id_L ∅ (∪)) in Hmerge.
  specialize (Hmerge eq_refl eq_refl).
  eexists. split; [| split; [exact Hmerge |]].
  { unfold parseTargetType. rewrite Hown. exact Hmerge. }
  simpl. repeat split; try done.
  - intros k v Hk. by apply lookup_union_Some_l.
  - intros k l Hk. by apply lookup_union_Some_l.
  - intros k Hk. by rewrite lookup_union_r.
  - intros k Hk. by rewrite lookup_union_r.
Qed.

Lemma parseTargetType_entry_wins_witness :
  parseTargetType1 own_yaml
  = Ok {| baseName := "QString";
          attributes := {[ "avoidCopy" := "no" ]};
          lists := {[ "imports" := ["<QtCore/QString>"] ]} |} /\
  addTypeAttributes (TypeUsage_of "") shared_yaml
  = Ok {| baseName := "";
          attributes := {[ "avoidCopy" := "yes"; "moveOnly" := "" ]};
          lists := {[ "imports" := ["<string>"] ]} |} /\
  exists tu,
    parseTargetType own_yaml shared_yaml = Ok tu /\
    attributes tu
    = ({[ "avoidCopy" := "no" ]} : gmap string string)
      ∪ {[ "avoidCopy" := "yes"; "moveOnly" := "" ]}.
Proof.
  assert (Hown : parseTargetType1 own_yaml
                 = Ok {| baseName := "QString";
                         attributes := {[ "avoidCopy" := "no" ]};
                         lists := {[ "imports" := ["<QtCore/QString>"] ]} |})
    by (vm_compute; reflexivity).
  assert (Hshared : addTypeAttributes (TypeUsage_of "") shared_yaml
                    = Ok {| baseName := "";
                            attributes := {[ "avoidCopy" := "yes"; "moveOnly" := "" ]};
                            lists := {[ "imports" := ["<string>"] ]} |})
    by (vm_compute; reflexivity).
  split; [exact Hown |]. split; [exact Hshared |].
  destruct (parseTargetType_entry_wins own_yaml shared_yaml _ _ Hown Hshared)
    as (tu & Hparse & _ & _ & Hattrs & _).
  exists tu. split; [exact Hparse | exact Hattrs].
Defined.

(** The same through a grouping directive of the [types] section: the
    entry keeps its [avoidCopy] and its [imports], and gets [moveOnly]
    from the shared attributes. *)
Example grouping_directive_merge :
  loadTypesMap
    [YMap [("+on", YSequence [YMap [("string", own_yaml)]]);
           ("+set", YMap shared_yaml)]]
  = Ok [("string",
         [("", {| baseName := "QString";
                  attributes := {[ "avoidCopy" := "no"; "moveOnly" := "" ]};
                  lists := {[ "imports" := ["<QtCore/QString>"] ]} |})])].
Proof. vm_compute. reflexivity. Qed.


(** * Further properties of the loaders and the resolvers *)

(** ** Induction on YAML nodes *)

Lemma YamlNode_deep_ind (P : YamlNode -> Prop) :
  P YNull ->
  (forall s, P (YScalar s)) ->
  (forall items, Forall P items -> P (YSequence items)) ->
  (forall pairs, Forall (fun kv => P kv.2) pairs -> P (YMap pairs)) ->
  forall n, P n.
Proof.
  intros HNull HScalar HSeq HMap. fix IH 1. intros [|s|items|pairs].
  - exact HNull.
  - apply HScalar.
  - apply HSeq. induction items as [|n items IHitems]; constructor;
      [apply IH | exact IHitems].
  - apply HMap. induction pairs as [|[k v] pairs IHpairs]; constructor;
      [apply IH | exact IHpairs].
Qed.

(** ** parseEntries as a sequence of calls of the inserter *)

Lemma bind_Ok_r {A} (r : result A) : r ≫= Ok = r.
Proof. by destruct r. Qed.

Lemma insertAll_app {Acc} (ins : string -> YamlNode -> YamlMap -> Acc -> result Acc)
    (l1 l2 : list Leaf) (acc : Acc) :
  insertAll ins (l1 ++ l2) acc = insertAll ins l1 acc ≫= insertAll ins l2.
Proof.
  revert acc. induction l1 as [|[[k v] c] l1 IH]; intros acc; simpl; [done |].
  destruct (ins k v c acc) as [acc'|e]; simpl; [apply IH | done].
Qed.

Lemma insertAll_record (leaves calls : list Leaf) :
  insertAll recordLeaf leaves calls = Ok (calls ++ leaves).
Proof.
  revert calls. induction leaves as [|[[k v] c] leaves IH]; intros calls; simpl.
  - by rewrite app_nil_r.
  - rewrite IH. by rewrite <- app_assoc.
Qed.

Lemma thenRaise_andThen {Acc}
    (ins : string -> YamlNode -> YamlMap -> Acc -> result Acc)
    (a b : list Leaf * option exn) (acc : Acc) :
  thenRaise (insertAll ins (andThen a b).1 acc) (andThen a b).2
  = thenRaise (insertAll ins a.1 acc) a.2
    ≫= fun acc' => thenRaise (insertAll ins b.1 acc') b.2.
Proof.
  destruct a as [l1 [e|]], b as [l2 r2]; unfold andThen, thenRaise; simpl.
  - by destruct (insertAll ins l1 acc).
  - rewrite insertAll_app. by destruct (insertAll ins l1 acc).
Qed.

(** A block agrees with its leaves when [parseEntries] does on it what
    the leaves say: it calls the inserter on them in their order and
    then throws the exception, if there is one. *)
Definition blockAgrees (block : YamlNode) : Prop :=
  forall common Acc (ins : string -> YamlNode -> YamlMap -> Acc -> result Acc) acc,
    parseBlock ins block common acc
    = thenRaise (insertAll ins (blockLeaves block common).1 acc)
        (blockLeaves block common).2.

Lemma entriesAgree_Forall (entries : YamlSequence) :
  Forall blockAgrees entries ->
  forall common Acc (ins : string -> YamlNode -> YamlMap -> Acc -> result Acc) acc,
    parseEntries ins entries common acc
    = thenRaise (insertAll ins (entriesLeaves entries common).1 acc)
        (entriesLeaves entries common).2.
Proof.
  induction 1 as [|block rest Hblock _ IH]; intros common Acc ins acc; simpl.
  - done.
  - rewrite thenRaise_andThen, Hblock.
    destruct (thenRaise (insertAll ins (blockLeaves block common).1 acc)
                (blockLeaves block common).2); simpl; [apply IH | done].
Qed.

Lemma blockAgrees_all (block : YamlNode) : blockAgrees block.
Proof.
  cut (blockAgrees block /\
       match block with
       | YSequence entries => Forall blockAgrees entries
       | _ => True
       end); [tauto |].
  induction block as [|s|items IH|pairs IH] using YamlNode_deep_ind.
  - split; [| done]. by intros common Acc ins acc.
  - split; [| done]. by intros common Acc ins acc.
  - split; [by intros common Acc ins acc |].
    eapply Forall_impl; [exact IH |]. by intros n [Hn _].
  - split; [| done]. intros common Acc ins acc.
    destruct pairs as [|[k1 v1] [|[k2 v2] [|third pairs]]]; try done.
    + simpl. unfold thenRaise. by destruct (ins k1 v1 common acc).
    + assert (Hbelow : forall shared entries,
                 (fix below (l : YamlSequence) : list Leaf * option exn :=
                    match l with
                    | [] => ([], None)
                    | b :: rest => andThen (blockLeaves b shared) (below rest)
                    end) entries
                 = entriesLeaves entries shared).
      { intros shared entries.
        induction entries as [|b rest IHrest]; simpl; [done |].
        by rewrite IHrest. }
      assert (Hloop : forall shared entries a,
                 (fix loop (l : YamlSequence) (acc : Acc) : result Acc :=
                    match l with
                    | [] => Ok acc
                    | block :: rest =>
                        acc' ← parseBlock ins block shared acc;
                        loop rest acc'
                    end) entries a
                 = parseEntries ins entries shared a).
      { intros shared entries.
        induction entries as [|b rest IHrest]; intros a; simpl; [done |].
        destruct (parseBlock ins b shared a); simpl; [apply IHrest | done]. }
      assert (Hgroup : forall on set,
                 match on with
                 | YSequence entries => Forall blockAgrees entries
                 | _ => True
                 end ->
                 parseBlock ins (YMap [("+on", on); ("+set", set)]) common acc
                 = thenRaise
                     (insertAll ins
                        (blockLeaves (YMap [("+on", on); ("+set", set)]) common).1
                        acc)
                     (blockLeaves (YMap [("+on", on); ("+set", set)]) common).2).
      { intros on set Hon. simpl.
        destruct on as [|s|entries|m]; try done.
        destruct set as [|s|l|shared]; simpl; try done.
        rewrite Hloop, Hbelow. by apply entriesAgree_Forall. }
      inversion IH as [|? ? [_ H1] IH']; subst.
      inversion IH' as [|? ? [_ H2] _]; subst. simpl in H1, H2.
      specialize (Hgroup v1 v2 H1) as Hfirst.
      specialize (Hgroup v2 v1 H2) as Hsecond.
      simpl in Hfirst, Hsecond |- *.
      destruct (decide (k1 = "+on" /\ k2 = "+set")) as [_|_]; [exact Hfirst |].
      destruct (decide (k1 = "+set" /\ k2 = "+on")) as [_|_]; [exact Hsecond |].
      done.
Qed.

Lemma entriesAgree_all (entries : YamlSequence) (common : YamlMap) {Acc}
    (ins : string -> YamlNode -> YamlMap -> Acc -> result Acc) (acc : Acc) :
  parseEntries ins entries common acc
  = thenRaise (insertAll ins (entriesLeaves entries common).1 acc)
      (entriesLeaves entries common).2.
Proof.
  apply entriesAgree_Forall, List.Forall_forall. intros b _.
  apply blockAgrees_all.
Qed.

(** X1: [parseEntries] calls the inserter on the leaves of the
    sequence in document order and then throws the exception of the
    first block that is not an entry, if there is one: what it returns
    is what the inserter returns on [entriesLeaves], leaf after leaf,
    for every inserter and container. The leaves of a sequence of
    one-pair blocks are its pairs, first to last, each with the common
    attributes; the leaves of two sequences put end to end are those
    of the first followed by those of the second; and the leaves of a
    grouping directive are those of its [+on] sequence under its [+set]
    map. *)
Theorem parseEntries_in_document_order :
  forall entries common,
    (forall Acc (ins : string -> YamlNode -> YamlMap -> Acc -> result Acc) acc,
        parseEntries ins entries common acc
        = thenRaise (insertAll ins (entriesLeaves entries common).1 acc)
            (entriesLeaves entries common).2) /\
    (forall pairs : YamlMap,
        entriesLeaves (map (fun kv => YMap [kv]) pairs) common
        = (map (fun kv : string * YamlNode => (kv.1, kv.2, common)) pairs, None) /\
        forall Acc (ins : string -> YamlNode -> YamlMap -> Acc -> result Acc) acc,
          parseEntries ins (map (fun kv => YMap [kv]) pairs) common acc
          = insertAll ins
              (map (fun kv : string * YamlNode => (kv.1, kv.2, common)) pairs)
              acc) /\
    (forall more,
        entriesLeaves (entries ++ more) common
        = andThen (entriesLeaves entries common) (entriesLeaves more common)) /\
    (forall shared,
        entriesLeaves [YMap [("+on", YSequence entries); ("+set", YMap shared)]]
          common
        = entriesLeaves entries shared).
Proof.
  intros entries common.
  assert (Hagree : forall es c Acc
                          (ins : string -> YamlNode -> YamlMap -> Acc -> result Acc)
                          acc,
             parseEntries ins es c acc
             = thenRaise (insertAll ins (entriesLeaves es c).1 acc)
                 (entriesLeaves es c).2).
  { intros es c Acc ins acc. apply entriesAgree_all. }
  assert (Hflat : forall pairs : YamlMap,
             entriesLeaves (map (fun kv => YMap [kv]) pairs) common
             = (map (fun kv : string * YamlNode => (kv.1, kv.2, common)) pairs,
                None)).
  { induction pairs as [|[k v] pairs IH]; simpl; [done |].
    rewrite IH. reflexivity. }
  split; [apply Hagree |]. split; [| split].
  - intros pairs. split; [apply Hflat |].
    intros Acc ins acc. rewrite Hagree, Hflat. simpl.
    unfold thenRaise. by destruct (insertAll ins _ acc).
  - intros more. induction entries as [|b rest IH]; simpl.
    + unfold andThen. simpl. by destruct (entriesLeaves more common).
    + rewrite IH. unfold andThen.
      destruct (blockLeaves b common) as [l1 [e1|]]; simpl; [done |].
      destruct (entriesLeaves rest common) as [l2 [e2|]]; simpl; [done |].
      by rewrite app_assoc.
  - intros shared. simpl.
    assert (Hbelow : forall es,
               (fix below (l : YamlSequence) : list Leaf * option exn :=
                  match l with
                  | [] => ([], None)
                  | b :: rest => andThen (blockLeaves b shared) (below rest)
                  end) es
               = entriesLeaves es shared).
    { induction es as [|b rest IHrest]; simpl; [done |]. by rewrite IHrest. }
    rewrite Hbelow. unfold andThen.
    destruct (entriesLeaves entries shared) as [l [e|]]; simpl; [done |].
    by rewrite app_nil_r.
Qed.

Lemma thenRaise_Ok {A} (r : result A) (raised : option exn) (a : A) :
  thenRaise r raised = Ok a -> r = Ok a /\ raised = None.
Proof. unfold thenRaise. destruct r, raised; simpl; by intros [= <-] || done. Qed.

Lemma parseEntries_Ok_leaves {Acc}
    (ins : string -> YamlNode -> YamlMap -> Acc -> result Acc)
    (entries : YamlSequence) (common : YamlMap) (acc acc' : Acc) :
  parseEntries ins entries common acc = Ok acc' ->
  exists leaves,
    parseEntries recordLeaf entries common [] = Ok leaves /\
    insertAll ins leaves acc = Ok acc'.
Proof.
  intros H. rewrite entriesAgree_all in H.
  apply thenRaise_Ok in H as [Hins Hnone].
  exists (entriesLeaves entries common).1. split; [| done].
  rewrite entriesAgree_all, insertAll_record, Hnone. reflexivity.
Qed.

Lemma parseEntries_app {Acc}
    (ins : string -> YamlNode -> YamlMap -> Acc -> result Acc)
    (l1 l2 : YamlSequence) (common : YamlMap) (acc : Acc) :
  parseEntries ins (l1 ++ l2) common acc
  = parseEntries ins l1 common acc ≫= parseEntries ins l2 common.
Proof.
  revert acc. induction l1 as [|b l1 IH]; intros acc; simpl; [done |].
  destruct (parseBlock ins b common acc); simpl; [apply IH | done].
Qed.

(** What an inserter that appends one computed pair per call adds to
    its container. *)
Lemma insertAll_appending {B}
    (f : string -> YamlNode -> YamlMap -> result B) (g : string -> string)
    (leaves : list Leaf) :
  forall acc acc',
    insertAll (fun k v c acc => x ← f k v c; Ok (acc ++ [(g k, x)])) leaves acc
    = Ok acc' ->
    exists added,
      acc' = acc ++ added /\
      Forall2 (fun (r : string * B) (l : Leaf) =>
                 r.1 = g l.1.1 /\ f l.1.1 l.1.2 l.2 = Ok r.2) added leaves.
Proof.
  induction leaves as [|[[k v] c] leaves IH]; intros acc acc' H; simpl in H.
  - injection H as <-. exists []. by rewrite app_nil_r.
  - inv_bind H. inv_bind Ha. injection Ha as <-.
    destruct (IH _ _ H) as (added & -> & Hadded).
    exists ((g k, a0) :: added). split; [by rewrite <- app_assoc |].
    by constructor.
Qed.

(** X2: a grouping directive hands its own [+set] map to the entries
    under [+on] and nothing of the common attributes it was itself
    given: a group behaves the same under any common attributes, a
    group nested in a group is parsed as if it stood alone, and an
    entry in it is inserted with the inner [+set] map only. *)
Theorem group_replaces_common :
  forall Acc (ins : string -> YamlNode -> YamlMap -> Acc -> result Acc)
         entries inner outer common acc,
    parseBlock ins
      (YMap [("+on", YSequence entries); ("+set", YMap inner)]) common acc
    = parseEntries ins entries inner acc /\
    parseBlock ins
      (YMap [("+on", YSequence
                [YMap [("+on", YSequence entries); ("+set", YMap inner)]]);
             ("+set", YMap outer)]) common acc
    = parseEntries ins entries inner acc /\
    (forall name typeYaml,
        parseEntries recordLeaf
          [YMap [("+on", YSequence
                    [YMap [("+on", YSequence [YMap [(name, typeYaml)]]);
                           ("+set", YMap inner)]]);
                 ("+set", YMap outer)]] common []
        = Ok [(name, typeYaml, inner)]).
Proof.
  intros Acc ins entries inner outer common acc.
  assert (Hnested : forall A (i : string -> YamlNode -> YamlMap -> A -> result A)
                           es a,
             parseBlock i
               (YMap [("+on", YSequence
                         [YMap [("+on", YSequence es); ("+set", YMap inner)]]);
                      ("+set", YMap outer)]) common a
             = parseEntries i es inner a).
  { intros A i es a.
    rewrite (proj1 (parseBlock_group i _ outer common a)).
    change (parseBlock i (YMap [("+on", YSequence es); ("+set", YMap inner)])
              outer a ≫= Ok = parseEntries i es inner a).
    rewrite bind_Ok_r. apply parseBlock_group. }
  split; [apply parseBlock_group |]. split; [apply Hnested |].
  intros name typeYaml.
  change (parseBlock recordLeaf
            (YMap [("+on", YSequence
                      [YMap [("+on", YSequence [YMap [(name, typeYaml)]]);
                             ("+set", YMap inner)]]);
                   ("+set", YMap outer)]) common [] ≫= Ok
          = Ok [(name, typeYaml, inner)]).
  rewrite bind_Ok_r, Hnested. reflexivity.
Qed.

(** X3: a map block with no pair, with more than two pairs, or with
    two pairs whose keys are not [+on] and [+set], makes [parseEntries]
    throw a [YamlException] once the blocks before it have been
    processed, whatever the inserter and whatever follows the block;
    the message is the one for an empty entry in the first case and the
    one for too many entries in the others. *)
Theorem parseEntries_malformed_block :
  forall Acc (ins : string -> YamlNode -> YamlMap -> Acc -> result Acc)
         before block after common acc acc',
    parseEntries ins before common acc = Ok acc' ->
    malformedBlock block ->
    parseEntries ins (before ++ block :: after) common acc
    = Throw (YamlException
               match block with
               | YMap [] => "Empty type entry"
               | _ => "Too many entries in the map, check indentation"
               end).
Proof.
  intros Acc ins before block after common acc acc' Hbefore Hbad.
  rewrite parseEntries_app, Hbefore. simpl.
  destruct block as [|s|items|pairs]; try done.
  destruct pairs as [|[k1 v1] [|[k2 v2] [|third pairs]]]; simpl in *; try done.
  destruct Hbad as [H1 H2].
  destruct (decide (k1 = "+on" /\ k2 = "+set")); [done |].
  by destruct (decide (k1 = "+set" /\ k2 = "+on")).
Qed.

Lemma parseEntries_malformed_block_witness :
  parseEntries recordLeaf [YMap [("integer", YScalar "int")]] [] []
  = Ok [("integer", YScalar "int", [])] /\
  malformedBlock (YMap [("integer", YScalar "int"); ("number", YScalar "double")]) /\
  parseEntries recordLeaf
    ([YMap [("integer", YScalar "int")]]
     ++ YMap [("integer", YScalar "int"); ("number", YScalar "double")]
     :: [YMap [("string", YScalar "QString")]]) [] []
  = Throw (YamlException "Too many entries in the map, check indentation").
Proof.
  assert (Hbefore : parseEntries recordLeaf [YMap [("integer", YScalar "int")]] [] []
                    = Ok [("integer", YScalar "int", [])]) by reflexivity.
  assert (Hbad : malformedBlock
                   (YMap [("integer", YScalar "int"); ("number", YScalar "double")])).
  { split; intros [H _]; discriminate. }
  split; [exact Hbefore |]. split; [exact Hbad |].
  exact (parseEntries_malformed_block _ recordLeaf _ _
           [YMap [("string", YScalar "QString")]] [] [] _ Hbefore Hbad).
Defined.

(** ** The type table as loaded *)

Lemma pop_back_nonempty (s : string) : 1 < size s -> pop_back s <> "".
Proof. destruct s as [|a [|b s]]; simpl; [lia | lia | done]. Qed.

Lemma normalizeFormatName_nonempty (formatName : string) :
  normalizeFormatName formatName <> "".
Proof.
  unfold normalizeFormatName.
  destruct (empty formatName) eqn:Hempty; [done |].
  destruct (1 <? size formatName)%nat eqn:Hsize; simpl.
  - apply Nat.ltb_lt in Hsize.
    destruct (is_char (front formatName) slash && is_char (back formatName) slash);
      [by apply pop_back_nonempty | by apply empty_false_iff].
  - by apply empty_false_iff.
Qed.

Lemma parseTargetType1_no_type (node : YamlNode) (tu : TypeUsage) :
  parseTargetType1 node = Ok tu ->
  attributes tu !! "type" = None /\ lists tu !! "type" = None.
Proof.
  destruct node as [|s|items|pairs]; simpl.
  - by intros [= <-].
  - by intros [= <-].
  - discriminate.
  - intros H. by destruct (addTypeAttributes_type _ _ _ H) as [-> ->].
Qed.

Lemma parseTargetType_no_type (node : YamlNode) (common : YamlMap) (tu : TypeUsage) :
  parseTargetType node common = Ok tu ->
  attributes tu !! "type" = None /\ lists tu !! "type" = None.
Proof.
  unfold parseTargetType. intros H. inv_bind H.
  destruct (addTypeAttributes_type _ _ _ H) as [-> ->].
  by apply (parseTargetType1_no_type node).
Qed.

(** X4: the loaded type table has one entry per leaf of the [types]
    section, in document order and with repeated names kept: each entry
    has the key of its leaf and the rule list that [parseTypeEntry]
    makes of the leaf's node and common attributes. *)
Theorem loadTypesMap_entries_in_order :
  forall typesYaml typesMap,
    loadTypesMap typesYaml = Ok typesMap ->
    exists leaves,
      parseEntries recordLeaf typesYaml [] [] = Ok leaves /\
      Forall2 (fun (e : string * list (string * TypeUsage)) (l : Leaf) =>
                 e.1 = l.1.1 /\ parseTypeEntry l.1.2 l.2 = Ok e.2)
              typesMap leaves.
Proof.
  intros typesYaml typesMap H. unfold loadTypesMap in H.
  apply parseEntries_Ok_leaves in H as (leaves & Hleaves & Hins).
  exists leaves. split; [exact Hleaves |].
  change typeInserter
    with (fun k v c (acc : list (string * list (string * TypeUsage))) =>
            x ← (fun _ v c => parseTypeEntry v c) k v c;
            Ok (acc ++ [((fun k => k) k, x)])) in Hins.
  apply insertAll_appending in Hins as (added & -> & Hadded). exact Hadded.
Qed.

Lemma loadTypesMap_entries_in_order_witness :
  loadTypesMap
    [YMap [("integer", int_formats_yaml)]; YMap [("integer", YScalar "int")]]
  = Ok [("integer", int_formats); ("integer", [("", TypeUsage_of "int")])] /\
  exists leaves,
    parseEntries recordLeaf
      [YMap [("integer", int_formats_yaml)]; YMap [("integer", YScalar "int")]]
      [] [] = Ok leaves /\
    length leaves = 2.
Proof.
  assert (H : loadTypesMap
                [YMap [("integer", int_formats_yaml)];
                 YMap [("integer", YScalar "int")]]
              = Ok [("integer", int_formats);
                    ("integer", [("", TypeUsage_of "int")])]) by reflexivity.
  split; [exact H |].
  destruct (loadTypesMap_entries_in_order _ _ H) as (leaves & Hleaves & Hall).
  exists leaves. split; [exact Hleaves |].
  symmetry. exact (Forall2_length _ _ _ Hall).
Defined.

(** X5: the rule list of a type entry has one of two shapes. For a
    scalar or a map node it is a single rule under the empty pattern.
    For a sequence it has one rule per leaf, in order, under the
    normalised format name of the leaf, and none of its patterns is
    empty. *)
Theorem parseTypeEntry_shape :
  forall targetTypeYaml common rules,
    parseTypeEntry targetTypeYaml common = Ok rules ->
    match targetTypeYaml with
    | YSequence entries =>
        exists leaves,
          parseEntries recordLeaf entries common [] = Ok leaves /\
          Forall2 (fun (r : string * TypeUsage) (l : Leaf) =>
                     r.1 = normalizeFormatName l.1.1 /\
                     parseTargetType l.1.2 l.2 = Ok r.2) rules leaves /\
          Forall (fun r : string * TypeUsage => r.1 <> "") rules
    | _ =>
        exists tu, rules = [("", tu)] /\
                   parseTargetType targetTypeYaml common = Ok tu
    end.
Proof.
  intros node common rules H.
  destruct node as [|s|entries|pairs]; simpl in H.
  - discriminate.
  - inv_bind H. injection H as <-. eauto.
  - apply parseEntries_Ok_leaves in H as (leaves & Hleaves & Hins).
    exists leaves. split; [exact Hleaves |].
    change formatInserter
      with (fun k v c (acc : list (string * TypeUsage)) =>
              x ← (fun _ v c => parseTargetType v c) k v c;
              Ok (acc ++ [(normalizeFormatName k, x)])) in Hins.
    apply insertAll_appending in Hins as (added & -> & Hadded).
    split; [exact Hadded |].
    simpl. clear Hleaves. induction Hadded as [|r l added leaves [Hr _] _ IH];
      constructor; [| exact IH].
    rewrite Hr. apply normalizeFormatName_nonempty.
  - inv_bind H. injection H as <-. eauto.
Qed.

Lemma parseTypeEntry_shape_witness :
  parseTypeEntry int_formats_yaml [] = Ok int_formats /\
  exists leaves,
    parseEntries recordLeaf
      [YMap [("", YMap [("type", YScalar "int32")])];
       YMap [("int64", YMap [("type", YScalar "int64")])]] [] [] = Ok leaves /\
    Forall (fun r : string * TypeUsage => r.1 <> "") int_formats.
Proof.
  assert (H : parseTypeEntry int_formats_yaml [] = Ok int_formats) by reflexivity.
  split; [exact H |].
  destruct (parseTypeEntry_shape _ _ _ H) as (leaves & Hleaves & _ & Hnonempty).
  exists leaves. split; [exact Hleaves | exact Hnonempty].
Defined.

(** X6: a type entry given as a scalar or as a map is selected for the
    empty format only: its single rule has the empty pattern, which
    equals no other format and is not a regex; for any other format the
    scan goes on with the entries that follow, without a call of the
    regex library. *)
Theorem formatless_entry_matches_empty_format_only :
  forall targetTypeYaml common rules,
    match targetTypeYaml with YScalar _ | YMap _ => True | _ => False end ->
    parseTypeEntry targetTypeYaml common = Ok rules ->
    exists tu,
      rules = [("", tu)] /\
      forall regex_search rest swaggerType swaggerFormat,
        scanTypes regex_search ((swaggerType, rules) :: rest)
          swaggerType swaggerFormat
        = if decide (swaggerFormat = "") then Ok (Some tu)
          else scanTypes regex_search rest swaggerType swaggerFormat.
Proof.
  intros node common rules Hnode H.
  assert (Hone : exists tu, rules = [("", tu)]).
  { destruct node; try done; simpl in H; inv_bind H; injection H as <-; eauto. }
  destruct Hone as (tu & ->). exists tu. split; [done |].
  intros rs rest ty fmt. simpl. rewrite decide_True by done.
  unfold formatMatches. simpl.
  destruct (decide (fmt = "")) as [->|Hne].
  - by rewrite decide_True.
  - by rewrite decide_False by done.
Qed.

Lemma formatless_entry_matches_empty_format_only_witness :
  parseTypeEntry (YScalar "QString") [] = Ok [("", TypeUsage_of "QString")] /\
  exists tu,
    [("", TypeUsage_of "QString")] = [("", tu)] /\
    mapType FragmentRegex.regex_search
      [("string", [("", TypeUsage_of "QString")])] "string" "date" ""
    = Ok (TypeUsage_of "date").
Proof.
  assert (H : parseTypeEntry (YScalar "QString") []
              = Ok [("", TypeUsage_of "QString")]) by reflexivity.
  split; [exact H |].
  destruct (formatless_entry_matches_empty_format_only
              (YScalar "QString") [] _ I H) as (tu & Heq & Hscan).
  exists tu. split; [exact Heq |].
  unfold mapType. rewrite Hscan. reflexivity.
Defined.

(** ** The scan of mapType *)

Definition noTypeKey (tu : TypeUsage) : Prop :=
  attributes tu !! "type" = None /\ lists tu !! "type" = None.

Lemma parseTypeEntry_noTypeKey (node : YamlNode) (common : YamlMap)
    (rules : list (string * TypeUsage)) :
  parseTypeEntry node common = Ok rules ->
  Forall (fun r : string * TypeUsage => noTypeKey r.2) rules.
Proof.
  intros H. destruct node as [|s|entries|pairs]; simpl in H.
  - discriminate.
  - inv_bind H. injection H as <-. repeat constructor; simpl;
      by apply (parseTargetType_no_type _ _ _ Ha).
  - apply parseEntries_Ok_leaves in H as (leaves & _ & Hins).
    change formatInserter
      with (fun k v c (acc : list (string * TypeUsage)) =>
              x ← (fun _ v c => parseTargetType v c) k v c;
              Ok (acc ++ [(normalizeFormatName k, x)])) in Hins.
    apply insertAll_appending in Hins as (added & -> & Hadded). simpl.
    induction Hadded as [|r l added leaves [_ Hr] _ IH]; constructor;
      [| exact IH].
    by apply (parseTargetType_no_type _ _ _ Hr).
  - inv_bind H. injection H as <-. repeat constructor; simpl;
      by apply (parseTargetType_no_type _ _ _ Ha).
Qed.

Lemma loadTypesMap_noTypeKey (typesYaml : YamlSequence)
    (typesMap : list (string * list (string * TypeUsage))) :
  loadTypesMap typesYaml = Ok typesMap ->
  Forall (fun e : string * list (string * TypeUsage) =>
            Forall (fun r : string * TypeUsage => noTypeKey r.2) e.2) typesMap.
Proof.
  intros H. unfold loadTypesMap in H.
  apply parseEntries_Ok_leaves in H as (leaves & _ & Hins).
  change typeInserter
    with (fun k v c (acc : list (string * list (string * TypeUsage))) =>
            x ← (fun _ v c => parseTypeEntry v c) k v c;
            Ok (acc ++ [((fun k => k) k, x)])) in Hins.
  apply insertAll_appending in Hins as (added & -> & Hadded). simpl.
  induction Hadded as [|e l added leaves [_ He] _ IH]; constructor; [| exact IH].
  by apply (parseTypeEntry_noTypeKey _ _ _ He).
Qed.

Section ScanFacts.
Variable regex_search : string -> string -> option bool.

Lemma scanFormats_app (a b : list (string * TypeUsage)) (fmt : string) :
  scanFormats regex_search (a ++ b) fmt
  = found ← scanFormats regex_search a fmt;
    match found with
    | Some tu => Ok (Some tu)
    | None => scanFormats regex_search b fmt
    end.
Proof.
  induction a as [|[p tu] a IH]; simpl; [done |].
  destruct (formatMatches regex_search p fmt) as [[|]|e]; simpl; done.
Qed.

Lemma scanTypes_formatsFor (tm : list (string * list (string * TypeUsage)))
    (ty fmt : string) :
  scanTypes regex_search tm ty fmt
  = scanFormats regex_search (formatsFor ty tm) fmt.
Proof.
  induction tm as [|[k rules] tm IH]; simpl; [done |].
  case_decide; simpl; [| exact IH].
  rewrite scanFormats_app.
  destruct (scanFormats regex_search rules fmt) as [[tu|]|e]; simpl; done.
Qed.

(** What a scan that returns tells about the rules. *)
Lemma scanFormats_Some (rules : list (string * TypeUsage)) (fmt : string)
    (tu : TypeUsage) :
  scanFormats regex_search rules fmt = Ok (Some tu) ->
  exists before p after,
    rules = before ++ (p, tu) :: after /\
    Forall (fun r : string * TypeUsage =>
              formatMatches regex_search r.1 fmt = Ok false) before /\
    formatMatches regex_search p fmt = Ok true.
Proof.
  induction rules as [|[p0 tu0] rules IH]; simpl; [discriminate |].
  intros H. inv_bind H. destruct a.
  - injection H as <-. by exists [], p0, rules.
  - destruct (IH H) as (before & p & after & -> & Hbefore & Hhit).
    exists ((p0, tu0) :: before), p, after. split; [done |].
    split; [by constructor | done].
Qed.

Lemma scanFormats_None (rules : list (string * TypeUsage)) (fmt : string) :
  scanFormats regex_search rules fmt = Ok None ->
  Forall (fun r : string * TypeUsage =>
            formatMatches regex_search r.1 fmt = Ok false) rules.
Proof.
  induction rules as [|[p0 tu0] rules IH]; simpl; [by constructor |].
  intros H. inv_bind H. destruct a; [discriminate |].
  constructor; [done | by apply IH].
Qed.

Lemma formatMatches_literal (p fmt : string) :
  front p <> Some slash ->
  formatMatches regex_search p fmt = Ok (bool_decide (p = fmt)).
Proof.
  intros Hp. unfold formatMatches. rewrite not_marked by done.
  case_decide; [by rewrite bool_decide_eq_true_2 | by rewrite bool_decide_eq_false_2].
Qed.

Lemma scanFormats_literal (rules : list (string * TypeUsage)) (fmt : string) :
  Forall (fun r : string * TypeUsage => front r.1 <> Some slash) rules ->
  scanFormats regex_search rules fmt = Ok (firstExact rules fmt).
Proof.
  induction 1 as [|[p tu] rules Hp _ IH]; simpl; [done |].
  simpl in Hp. rewrite formatMatches_literal by done. simpl.
  case_decide.
  - by rewrite bool_decide_eq_true_2.
  - by rewrite bool_decide_eq_false_2.
Qed.

Lemma formatMatches_catch_all (fmt : string) :
  empty_pattern_matches regex_search ->
  formatMatches regex_search "/" fmt = Ok true.
Proof. intros Hempty. apply formatMatches_regex, Hempty. Qed.
End ScanFacts.

Lemma formatsFor_In (ty : string) (tm : list (string * list (string * TypeUsage)))
    (r : string * TypeUsage) :
  In r (formatsFor ty tm) <-> exists rules, In (ty, rules) tm /\ In r rules.
Proof.
  unfold formatsFor. rewrite in_flat_map. split.
  - intros ([k rules] & Hin & Hr). simpl in Hr.
    case_decide as Hk; [| done]. simpl in Hk. subst k. eauto.
  - intros (rules & Hin & Hr). exists (ty, rules). split; [done |].
    simpl. by rewrite decide_True.
Qed.

(** X7: several entries under the same key behave as one entry with
    their rules put end to end, and entries under other keys play no
    part: [mapType] scans the rules of [formatsFor swaggerType]. *)
Theorem mapType_scans_formatsFor :
  forall regex_search typesMap swaggerType swaggerFormat baseName0,
    scanTypes regex_search typesMap swaggerType swaggerFormat
    = scanFormats regex_search (formatsFor swaggerType typesMap) swaggerFormat /\
    mapType regex_search typesMap swaggerType swaggerFormat baseName0
    = mapType regex_search [(swaggerType, formatsFor swaggerType typesMap)]
        swaggerType swaggerFormat baseName0.
Proof.
  intros rs tm ty fmt bn. split; [apply scanTypes_formatsFor |].
  unfold mapType. rewrite !scanTypes_formatsFor.
  unfold formatsFor at 2. simpl. rewrite decide_True by done.
  by rewrite app_nil_r.
Qed.

(** X8: a result of [mapType] is one of two things: the [TypeUsage] of
    the first rule for [swaggerType] whose pattern matches, every rule
    before it having been tried and found not to match, under the name
    of the fallback chain; or, when every rule for [swaggerType] has
    been tried and none matches, the [TypeUsage] that has the fallback
    name and neither attributes nor lists. *)
Theorem mapType_result :
  forall regex_search typesMap swaggerType swaggerFormat baseName0 tu,
    mapType regex_search typesMap swaggerType swaggerFormat baseName0 = Ok tu ->
    (exists before p stored after,
        formatsFor swaggerType typesMap = before ++ (p, stored) :: after /\
        Forall (fun r : string * TypeUsage =>
                  formatMatches regex_search r.1 swaggerFormat = Ok false) before /\
        formatMatches regex_search p swaggerFormat = Ok true /\
        tu = set_baseName
               (fallbackName swaggerType swaggerFormat baseName0) stored) \/
    (Forall (fun r : string * TypeUsage =>
               formatMatches regex_search r.1 swaggerFormat = Ok false)
            (formatsFor swaggerType typesMap) /\
     tu = TypeUsage_of (fallbackName swaggerType swaggerFormat baseName0)).
Proof.
  intros rs tm ty fmt bn tu H.
  apply mapType_Ok in H as (found & Hscan & ->).
  rewrite scanTypes_formatsFor in Hscan. destruct found as [stored|].
  - left. apply scanFormats_Some in Hscan
      as (before & p & after & Heq & Hbefore & Hhit).
    by exists before, p, stored, after.
  - right. split; [by apply scanFormats_None | done].
Qed.

Lemma mapType_result_witness :
  mapType FragmentRegex.regex_search long_table "integer" "int32" ""
  = Ok (TypeUsage_of "int32") /\
  Forall (fun r : string * TypeUsage =>
            formatMatches FragmentRegex.regex_search r.1 "int32" = Ok false)
         (formatsFor "integer" long_table).
Proof.
  assert (H : mapType FragmentRegex.regex_search long_table "integer" "int32" ""
              = Ok (TypeUsage_of "int32")) by reflexivity.
  split; [exact H |].
  destruct (mapType_result _ _ _ _ _ _ H)
    as [(before & p & stored & after & Heq & _ & Hhit & _) | [Hnone _]];
    [| exact Hnone].
  exfalso.
  destruct before as [|r [|r' before]]; try discriminate.
  injection Heq as <- _ _. discriminate.
Defined.

(** X9: when no rule for [swaggerType] begins with ['/'], [mapType]
    is a lookup of the first rule whose pattern is [swaggerFormat]: it
    returns for every regex library, never throws, and a format that
    is the pattern of no rule gives the bare fallback [TypeUsage]. *)
Theorem mapType_without_regex_rules :
  forall regex_search typesMap swaggerType swaggerFormat baseName0,
    Forall (fun r : string * TypeUsage => front r.1 <> Some slash)
           (formatsFor swaggerType typesMap) ->
    mapType regex_search typesMap swaggerType swaggerFormat baseName0
    = Ok (set_baseName (fallbackName swaggerType swaggerFormat baseName0)
            (default (TypeUsage_of "")
               (firstExact (formatsFor swaggerType typesMap) swaggerFormat))).
Proof.
  intros rs tm ty fmt bn Hliteral. unfold mapType.
  rewrite scanTypes_formatsFor, scanFormats_literal by done. reflexivity.
Qed.

Lemma mapType_without_regex_rules_witness :
  Forall (fun r : string * TypeUsage => front r.1 <> Some slash)
         (formatsFor "integer" long_table) /\
  mapType (fun _ _ => None) long_table "integer" "int64" "qint64"
  = Ok (set_baseName "qint64" (TypeUsage_of "long")).
Proof.
  assert (H : Forall (fun r : string * TypeUsage => front r.1 <> Some slash)
                     (formatsFor "integer" long_table)).
  { repeat constructor. simpl. discriminate. }
  split; [exact H |].
  exact (mapType_without_regex_rules (fun _ _ => None) long_table
           "integer" "int64" "qint64" H).
Defined.

(** X10: the rules that follow the all-formats rule [/] among those of
    a type are never selected: given that the empty regular expression
    matches every subject, [mapType] gives the same result with and
    without them. The name [/] is what the loader stores for an empty
    format name and for the format name [//]. *)
Theorem rules_after_catch_all_are_dead :
  forall regex_search typesMap swaggerType swaggerFormat baseName0
         before tu after,
    empty_pattern_matches regex_search ->
    formatsFor swaggerType typesMap = before ++ ("/", tu) :: after ->
    mapType regex_search typesMap swaggerType swaggerFormat baseName0
    = mapType regex_search [(swaggerType, before ++ [("/", tu)])]
        swaggerType swaggerFormat baseName0 /\
    normalizeFormatName "" = "/" /\ normalizeFormatName "//" = "/".
Proof.
  intros rs tm ty fmt bn before tu after Hempty Hrules.
  split; [| done]. unfold mapType.
  rewrite !scanTypes_formatsFor, Hrules.
  unfold formatsFor. simpl. rewrite decide_True by done. rewrite app_nil_r.
  rewrite !scanFormats_app. simpl.
  by rewrite formatMatches_catch_all.
Qed.

Lemma rules_after_catch_all_are_dead_witness :
  empty_pattern_matches FragmentRegex.regex_search /\
  formatsFor "integer" [("integer", int_formats)]
  = [] ++ ("/", TypeUsage_of "int32") :: [("int64", TypeUsage_of "int64")] /\
  mapType FragmentRegex.regex_search [("integer", int_formats)]
    "integer" "int64" ""
  = mapType FragmentRegex.regex_search
      [("integer", [] ++ [("/", TypeUsage_of "int32")])] "integer" "int64" "".
Proof.
  split; [exact fragment_empty_pattern_matches |]. split; [reflexivity |].
  exact (proj1 (rules_after_catch_all_are_dead FragmentRegex.regex_search
                  [("integer", int_formats)] "integer" "int64" ""
                  [] (TypeUsage_of "int32") [("int64", TypeUsage_of "int64")]
                  fragment_empty_pattern_matches eq_refl)).
Defined.

(** X11: no [TypeUsage] of a loaded type table has an attribute or a
    list named [type], and so none that [mapType] returns from such a
    table has one. *)
Theorem loaded_table_has_no_type_key :
  forall typesYaml typesMap,
    loadTypesMap typesYaml = Ok typesMap ->
    (forall key rules p stored,
        In (key, rules) typesMap -> In (p, stored) rules ->
        attributes stored !! "type" = None /\ lists stored !! "type" = None) /\
    (forall regex_search swaggerType swaggerFormat baseName0 tu,
        mapType regex_search typesMap swaggerType swaggerFormat baseName0 = Ok tu ->
        attributes tu !! "type" = None /\ lists tu !! "type" = None).
Proof.
  intros typesYaml tm Hload.
  pose proof (loadTypesMap_noTypeKey _ _ Hload) as Hall.
  assert (Hstored : forall key rules p stored,
             In (key, rules) tm -> In (p, stored) rules -> noTypeKey stored).
  { intros key rules p stored Hentry Hrule.
    rewrite List.Forall_forall in Hall. specialize (Hall _ Hentry). simpl in Hall.
    rewrite List.Forall_forall in Hall. exact (Hall _ Hrule). }
  split; [exact Hstored |].
  intros rs ty fmt bn tu H.
  apply mapType_Ok in H as (found & Hscan & ->). simpl.
  destruct found as [stored|]; simpl; [| done].
  rewrite scanTypes_formatsFor in Hscan.
  apply scanFormats_Some in Hscan as (before & p & after & Heq & _ & _).
  assert (Hin : In (p, stored) (formatsFor ty tm)).
  { rewrite Heq. apply in_elt. }
  apply formatsFor_In in Hin as (rules & Hentry & Hrule).
  exact (Hstored _ _ _ _ Hentry Hrule).
Qed.

Lemma loaded_table_has_no_type_key_witness :
  loadTypesMap [YMap [("string", own_yaml)]]
  = Ok [("string",
         [("", {| baseName := "QString";
                  attributes := {[ "avoidCopy" := "no" ]};
                  lists := {[ "imports" := ["<QtCore/QString>"] ]} |})])] /\
  ({[ "avoidCopy" := "no" ]} : gmap string string) !! "type" = None.
Proof.
  assert (H : loadTypesMap [YMap [("string", own_yaml)]]
              = Ok [("string",
                     [("", {| baseName := "QString";
                              attributes := {[ "avoidCopy" := "no" ]};
                              lists := {[ "imports" := ["<QtCore/QString>"] ]} |})])])
    by (vm_compute; reflexivity).
  split; [exact H |].
  destruct (loaded_table_has_no_type_key _ _ H) as [Hstored _].
  exact (proj1 (Hstored "string" _ "" _ (or_introl eq_refl) (or_introl eq_refl))).
Defined.

(** ** The table of loadStringMap *)

Lemma loadSubst_rejected (st : LoadState) (subst : string * YamlNode) :
  rejected subst.1 = true ->
  loadSubst st subst
  = Ok {| clog := clog st ++ [if empty subst.1 then warn_empty_pattern
                              else warn_invalid_regex];
          stringMap := stringMap st |}.
Proof.
  unfold rejected, loadSubst. destruct (empty subst.1); simpl; [done |].
  by intros ->.
Qed.

Lemma loadSubst_accepted (st : LoadState) (subst : string * YamlNode) :
  rejected subst.1 = false ->
  loadSubst st subst
  = replacement ← as_string subst.2;
    Ok {| clog := clog st;
          stringMap := stringMap st ++ [(storedPattern subst.1, replacement)] |}.
Proof.
  unfold rejected, loadSubst, storedPattern.
  destruct (empty subst.1); simpl; [done |]. by intros ->.
Qed.

Lemma loadStringMap_from_Ok (yaml : YamlMap) :
  forall st st',
    loadStringMap_from st yaml = Ok st' ->
    map (fun r : string * string => (r.1, YScalar r.2)) (stringMap st')
    = map (fun r : string * string => (r.1, YScalar r.2)) (stringMap st)
      ++ map (fun kv : string * YamlNode => (storedPattern kv.1, kv.2))
             (List.filter (fun kv : string * YamlNode => negb (rejected kv.1)) yaml) /\
    clog st'
    = clog st
      ++ map (fun kv : string * YamlNode =>
                if empty kv.1 then warn_empty_pattern else warn_invalid_regex)
             (List.filter (fun kv : string * YamlNode => rejected kv.1) yaml).
Proof.
  induction yaml as [|[k v] yaml IH]; intros st st' H; simpl in H.
  - injection H as <-. simpl. by rewrite !app_nil_r.
  - inv_bind H. destruct (IH _ _ H) as [Hmap Hlog].
    rewrite Hmap, Hlog. simpl. destruct (rejected k) eqn:Hk; simpl.
    + rewrite loadSubst_rejected in Ha by done. injection Ha as <-. simpl.
      by rewrite <- app_assoc.
    + rewrite loadSubst_accepted in Ha by done. simpl in Ha.
      destruct v as [|s|l|m]; try discriminate. injection Ha as <-. simpl.
      rewrite map_app. simpl. by rewrite <- !app_assoc.
Qed.

(** X12: the table and the diagnostics of a load that returns are the
    pairs of the map in their order, split in two: what is stored is,
    for each pattern that is not rejected, the pattern (without its last
    character when it begins and ends with ['/']) with the scalar under
    it; what is written to the log is one diagnostic for each rejected
    pattern. *)
Theorem loadStringMap_result :
  forall yaml st,
    loadStringMap yaml = Ok st ->
    map (fun r : string * string => (r.1, YScalar r.2)) (stringMap st)
    = map (fun kv : string * YamlNode => (storedPattern kv.1, kv.2))
          (List.filter (fun kv : string * YamlNode => negb (rejected kv.1)) yaml) /\
    clog st
    = map (fun kv : string * YamlNode =>
             if empty kv.1 then warn_empty_pattern else warn_invalid_regex)
          (List.filter (fun kv : string * YamlNode => rejected kv.1) yaml) /\
    length (stringMap st) + length (clog st) = length yaml.
Proof.
  intros yaml st H. unfold loadStringMap in H.
  destruct (loadStringMap_from_Ok _ _ _ H) as [Hmap Hlog]. simpl in Hmap, Hlog.
  split; [exact Hmap |]. split; [exact Hlog |].
  rewrite <- (length_map (fun r : string * string => (r.1, YScalar r.2))).
  rewrite Hmap, Hlog, !length_map.
  clear. induction yaml as [|[k v] yaml IH]; simpl; [done |].
  destruct (rejected k); simpl; lia.
Qed.

Lemma loadStringMap_result_witness :
  loadStringMap sample_rules
  = Ok {| clog := [warn_empty_pattern; warn_invalid_regex];
          stringMap := [("/a.c", "x"); ("Id", "Identifier")] |} /\
  length [("/a.c", "x"); ("Id", "Identifier")]
  + length [warn_empty_pattern; warn_invalid_regex]
  = length sample_rules.
Proof.
  assert (H : loadStringMap sample_rules
              = Ok {| clog := [warn_empty_pattern; warn_invalid_regex];
                      stringMap := [("/a.c", "x"); ("Id", "Identifier")] |})
    by reflexivity.
  split; [exact H |].
  exact (proj2 (proj2 (loadStringMap_result _ _ H))).
Defined.

(** X13: [loadStringMap] returns exactly when the value under every
    pattern that is not rejected is a scalar; the value under a
    rejected pattern is never read, so it may be anything. *)
Theorem loadStringMap_returns_iff :
  forall yaml,
    returns (loadStringMap yaml) <->
    Forall (fun kv : string * YamlNode =>
              rejected kv.1 = false -> exists s, kv.2 = YScalar s) yaml.
Proof.
  intros yaml. unfold loadStringMap.
  generalize {| clog := []; stringMap := [] |}.
  induction yaml as [|[k v] yaml IH]; intros st; simpl.
  - split; [constructor | by eexists].
  - destruct (rejected k) eqn:Hk.
    + rewrite loadSubst_rejected by done. simpl. split.
      * intros H. apply IH in H. constructor; [simpl; congruence | done].
      * inversion 1; subst. by apply IH.
    + rewrite loadSubst_accepted by done. simpl.
      destruct v as [|s|l|m]; simpl.
      * split; [by intros [? ?] |].
        inversion 1 as [|? ? Hv]; subst. by destruct (Hv Hk).
      * split.
        -- intros H. apply IH in H. constructor; [eauto | done].
        -- inversion 1; subst. by apply IH.
      * split; [by intros [? ?] |].
        inversion 1 as [|? ? Hv]; subst. by destruct (Hv Hk).
      * split; [by intros [? ?] |].
        inversion 1 as [|? ? Hv]; subst. by destruct (Hv Hk).
Qed.

(** X14: a stored pattern that does not begin with ['/'], a literal
    rule for the resolvers, never ends with ['/']. *)
Theorem loadStringMap_literal_patterns :
  forall yaml st pattern replacement,
    loadStringMap yaml = Ok st ->
    In (pattern, replacement) (stringMap st) ->
    front pattern <> Some slash ->
    back pattern <> Some slash.
Proof.
  intros yaml st pattern replacement H Hin Hfront.
  unfold loadStringMap in H.
  destruct (loadStringMap_from_Ok _ _ _ H) as [Hmap _]. simpl in Hmap.
  assert (Hin' : In (pattern, YScalar replacement)
                    (map (fun r : string * string => (r.1, YScalar r.2))
                         (stringMap st))).
  { apply in_map_iff. by exists (pattern, replacement). }
  rewrite Hmap in Hin'. apply in_map_iff in Hin' as ([k v] & [= Hk _] & Hkv).
  apply filter_In in Hkv as [_ Hacc]. simpl in Hk, Hacc.
  apply negb_true_iff in Hacc. unfold rejected in Hacc.
  apply orb_false_iff in Hacc as [Hempty Hbad].
  unfold storedPattern in Hk.
  destruct (is_char (front k) slash) eqn:Hf; simpl in Hk, Hbad.
  - destruct (is_char (back k) slash) eqn:Hb.
    + destruct k as [|a [|b k]]; simpl in *; subst; try done.
      apply Ascii.eqb_eq in Hf. subst a. by destruct Hfront.
    + subst k. by apply is_char_not.
  - subst k. rewrite andb_true_r in Hbad.
    destruct (is_char (back pattern) slash) eqn:Hb; [| by apply is_char_not].
    rewrite andb_true_r in Hbad. apply Nat.ltb_ge in Hbad.
    destruct pattern as [|a [|b pattern]]; simpl in *; try done; try lia.
Qed.

Lemma loadStringMap_literal_patterns_witness :
  loadStringMap sample_rules
  = Ok {| clog := [warn_empty_pattern; warn_invalid_regex];
          stringMap := [("/a.c", "x"); ("Id", "Identifier")] |} /\
  In ("Id", "Identifier") [("/a.c", "x"); ("Id", "Identifier")] /\
  front "Id" <> Some slash /\
  back "Id" <> Some slash.
Proof.
  assert (H : loadStringMap sample_rules
              = Ok {| clog := [warn_empty_pattern; warn_invalid_regex];
                      stringMap := [("/a.c", "x"); ("Id", "Identifier")] |})
    by reflexivity.
  assert (Hin : In ("Id", "Identifier") [("/a.c", "x"); ("Id", "Identifier")])
    by (right; left; reflexivity).
  assert (Hfront : front "Id" <> Some slash) by discriminate.
  split; [exact H |]. split; [exact Hin |]. split; [exact Hfront |].
  exact (loadStringMap_literal_patterns _ _ _ _ H Hin Hfront).
Defined.

(** ** Identifier rules, from the configuration to the resolver *)

Lemma back_slash_end (s : string) (c : ascii) :
  back (String c (s ++ "/")) = Some slash.
Proof.
  revert c. induction s as [|a s IH]; intros c; [done |].
  change (back (String a (s ++ "/")) = Some slash). apply IH.
Qed.

Lemma pop_back_slash_end (s : string) (c : ascii) :
  pop_back (String c (s ++ "/")) = String c s.
Proof.
  revert c. induction s as [|a s IH]; intros c; [done |].
  change (String c (pop_back (String a (s ++ "/"))) = String c (String a s)).
  by rewrite IH.
Qed.

Lemma rejected_marked (pattern : string) :
  rejected (String slash pattern) = false.
Proof.
  unfold rejected.
  change (is_char (front (String slash pattern)) slash) with true.
  simpl. by rewrite andb_false_r.
Qed.

Lemma storedPattern_delimited (re : string) :
  storedPattern (String slash (re ++ "/")) = String slash re.
Proof.
  unfold storedPattern. by rewrite back_slash_end, pop_back_slash_end.
Qed.

Lemma storedPattern_open (re : string) :
  re <> "" -> back re <> Some slash ->
  storedPattern (String slash re) = String slash re.
Proof.
  intros Hre Hback. unfold storedPattern.
  assert (Hb : is_char (back (String slash re)) slash = false).
  { apply is_char_not. destruct re; [done | exact Hback]. }
  by rewrite Hb, andb_false_r.
Qed.

Lemma loadStringMap_single (pattern replacement : string) :
  rejected pattern = false ->
  loadStringMap [(pattern, YScalar replacement)]
  = Ok {| clog := []; stringMap := [(storedPattern pattern, replacement)] |}.
Proof.
  intros Hacc. unfold loadStringMap, loadStringMap_from.
  by rewrite loadSubst_accepted.
Qed.

(** X15: the delimiters of a regex rule are taken off exactly. The
    pattern [/re/] is stored as [/re], and so is the pattern [/re] when
    [re] is not empty and does not end with ['/']; in [mapIdentifier] a
    rule stored as [/re] at the head of the table yields the regex
    substitution of [re] over the scoped name. *)
Theorem regex_rule_roundtrip :
  forall re replacement,
    loadStringMap [(String slash (re ++ "/"), YScalar replacement)]
    = Ok {| clog := []; stringMap := [(String slash re, replacement)] |} /\
    (re <> "" -> back re <> Some slash ->
     loadStringMap [(String slash re, YScalar replacement)]
     = Ok {| clog := []; stringMap := [(String slash re, replacement)] |}) /\
    (forall regex_replace rest baseName0 scope,
        mapIdentifier regex_replace ((String slash re, replacement) :: rest)
          baseName0 scope
        = regex_result
            (regex_replace (scope ++ "/" ++ baseName0)%string re replacement)).
Proof.
  intros re r. split; [| split].
  - rewrite loadStringMap_single by apply rejected_marked.
    by rewrite storedPattern_delimited.
  - intros Hre Hback.
    rewrite loadStringMap_single by apply rejected_marked.
    by rewrite storedPattern_open.
  - reflexivity.
Qed.

Lemma regex_rule_roundtrip_witness :
  ("_" <> "" /\ back "_" <> Some slash) /\
  loadStringMap [("/_", YScalar "-")]
  = Ok {| clog := []; stringMap := [("/_", "-")] |}.
Proof.
  assert (Hre : "_" <> "") by discriminate.
  assert (Hback : back "_" <> Some slash) by discriminate.
  split; [done |].
  destruct (regex_rule_roundtrip "_" "-") as (_ & H & _).
  exact (H Hre Hback).
Defined.

Section IdentifierScanFacts.
Variable regex_replace : string -> string -> string -> option string.

Lemma scanIdentifiers_literal (ids : list (string * string)) (bn sn : string) :
  Forall (fun e : string * string => front e.1 <> Some slash) ids ->
  scanIdentifiers regex_replace ids bn sn
  = Ok (default bn (firstLiteral ids bn sn)).
Proof.
  induction 1 as [|[q r] ids Hq _ IH]; simpl; [done |].
  simpl in Hq. rewrite not_marked by done.
  case_decide; [done | exact IH].
Qed.
End IdentifierScanFacts.

(** X16: the identifier rules that follow a regex rule are never
    consulted: [mapIdentifier] gives the same result whatever comes
    after the first rule that begins with ['/']. *)
Theorem rules_after_regex_rule_are_dead :
  forall regex_replace before pattern replacement after after' baseName0 scope,
    mapIdentifier regex_replace
      (before ++ (String slash pattern, replacement) :: after) baseName0 scope
    = mapIdentifier regex_replace
        (before ++ (String slash pattern, replacement) :: after') baseName0 scope.
Proof.
  intros rr before pattern r after after' bn scope. unfold mapIdentifier.
  generalize (scopedName_of scope bn). intros sn.
  induction before as [|[q r'] before IH]; simpl; [done |].
  destruct (negb (empty q) && is_char (front q) slash); [done |].
  case_decide; [done | exact IH].
Qed.

(** X17: on a table without regex rules [mapIdentifier] returns for
    every regex library and never throws: the result is the replacement
    text of the first rule whose pattern is [baseName] or the scoped
    name, and [baseName] itself when there is none. *)
Theorem mapIdentifier_without_regex_rules :
  forall regex_replace identifiers baseName0 scope,
    Forall (fun e : string * string => front e.1 <> Some slash) identifiers ->
    mapIdentifier regex_replace identifiers baseName0 scope
    = Ok (default baseName0
            (firstLiteral identifiers baseName0 (scope ++ "/" ++ baseName0)%string)).
Proof.
  intros rr ids bn scope Hliteral. unfold mapIdentifier.
  by rewrite scanIdentifiers_literal.
Qed.

Lemma mapIdentifier_without_regex_rules_witness :
  Forall (fun e : string * string => front e.1 <> Some slash)
         [("Id", "Identifier"); ("Room/Id", "RoomId")] /\
  mapIdentifier (fun _ _ _ => None)
    [("Id", "Identifier"); ("Room/Id", "RoomId")] "Id" "Room"
  = Ok "Identifier".
Proof.
  assert (H : Forall (fun e : string * string => front e.1 <> Some slash)
                     [("Id", "Identifier"); ("Room/Id", "RoomId")]).
  { repeat constructor; simpl; discriminate. }
  split; [exact H |].
  exact (mapIdentifier_without_regex_rules (fun _ _ _ => None) _ "Id" "Room" H).
Defined.

(** ** More on the attribute merger *)

Lemma asStrings_returns (seq : YamlSequence) :
  returns (asStrings seq) <-> scalars seq.
Proof.
  unfold scalars. induction seq as [|n seq IH]; simpl.
  - split; [constructor | by eexists].
  - destruct n as [|s|l|m]; simpl;
      try (split; [by intros [? ?] | by inversion 1 as [|? ? [? ?]]]).
    split.
    + intros [ss H]. inv_bind H. constructor; [by eexists |].
      apply IH. by eexists.
    + inversion 1 as [|? ? _ Hseq]; subst. apply IH in Hseq as [ss ->].
      by eexists.
Qed.

Lemma addTypeAttribute_returns (tu : TypeUsage) (attr : string * YamlNode) :
  returns (addTypeAttribute tu attr) <-> wellFormedAttribute attr.
Proof.
  unfold addTypeAttribute, wellFormedAttribute. destruct attr as [k v]; simpl.
  case_decide as Hk; [split; [by left | by eexists] |].
  destruct v as [|s|seq|m]; simpl.
  - split; [by right | by eexists].
  - split; [by right | by eexists].
  - rewrite <- asStrings_returns. split.
    + intros [tu' H]. inv_bind H. right. by eexists.
    + intros [? | [strs ->]]; [done |]. by eexists.
  - split; [by intros [? ?] | by intros [? | ?]].
Qed.

Lemma addTypeAttributes_elsewhere (m : YamlMap) :
  forall tu tu' e,
    addTypeAttributes tu m = Ok tu' ->
    exists e', addTypeAttributes e m = Ok e'.
Proof.
  induction m as [|attr m IH]; intros tu tu' e H; simpl in *; [by eexists |].
  inv_bind H.
  assert (Hwf : returns (addTypeAttribute e attr)).
  { apply addTypeAttribute_returns, (addTypeAttribute_returns tu). by eexists. }
  destruct Hwf as [e1 ->]. simpl. by apply (IH a tu').
Qed.

(** X18: [addTypeAttributes] returns exactly when every pair of the
    map has the key [type], whose value is not looked at, or a value
    that is null, a scalar, or a sequence of scalars. *)
Theorem addTypeAttributes_returns_iff :
  forall typeUsage attributesMap,
    returns (addTypeAttributes typeUsage attributesMap) <->
    Forall wellFormedAttribute attributesMap.
Proof.
  intros tu m. revert tu. induction m as [|attr m IH]; intros tu; simpl.
  - split; [constructor | by eexists].
  - split.
    + intros [tu' H]. inv_bind H. constructor.
      * apply (addTypeAttribute_returns tu). by eexists.
      * apply (IH a). by eexists.
    + inversion 1 as [|? ? Hattr Hrest]; subst.
      apply (addTypeAttribute_returns tu) in Hattr as [tu1 ->]. simpl.
      by apply IH.
Qed.

(** X19: applying the same attribute map a second time changes
    nothing. *)
Theorem addTypeAttributes_idempotent :
  forall typeUsage attributesMap tu',
    addTypeAttributes typeUsage attributesMap = Ok tu' ->
    addTypeAttributes tu' attributesMap = Ok tu'.
Proof.
  intros tu m tu' H.
  destruct (addTypeAttributes_elsewhere m tu tu' (TypeUsage_of "") H)
    as [added Hadded].
  pose proof (addTypeAttributes_union m tu (TypeUsage_of "") added
                (attributes tu) (lists tu) Hadded) as Hfirst.
  simpl in Hfirst. rewrite !(right_id_L ∅ (∪)) in Hfirst.
  specialize (Hfirst eq_refl eq_refl). rewrite Hfirst in H.
  injection H as <-.
  pose proof (addTypeAttributes_union m
                {| baseName := baseName tu;
                   attributes := attributes tu ∪ attributes added;
                   lists := lists tu ∪ lists added |}
                (TypeUsage_of "") added
                (attributes tu ∪ attributes added) (lists tu ∪ lists added)
                Hadded) as Hsecond.
  simpl in Hsecond. rewrite !(right_id_L ∅ (∪)) in Hsecond.
  specialize (Hsecond eq_refl eq_refl). rewrite Hsecond.
  rewrite <- !(assoc_L (∪)). by rewrite !(idemp_L (∪)).
Qed.

Lemma addTypeAttributes_idempotent_witness :
  addTypeAttributes (TypeUsage_of "QString") shared_yaml
  = Ok {| baseName := "QString";
          attributes := {[ "avoidCopy" := "yes"; "moveOnly" := "" ]};
          lists := {[ "imports" := ["<string>"] ]} |} /\
  addTypeAttributes
    {| baseName := "QString";
       attributes := {[ "avoidCopy" := "yes"; "moveOnly" := "" ]};
       lists := {[ "imports" := ["<string>"] ]} |} shared_yaml
  = Ok {| baseName := "QString";
          attributes := {[ "avoidCopy" := "yes"; "moveOnly" := "" ]};
          lists := {[ "imports" := ["<string>"] ]} |}.
Proof.
  assert (H : addTypeAttributes (TypeUsage_of "QString") shared_yaml
              = Ok {| baseName := "QString";
                      attributes := {[ "avoidCopy" := "yes"; "moveOnly" := "" ]};
                      lists := {[ "imports" := ["<string>"] ]} |})
    by (vm_compute; reflexivity).
  split; [exact H |].
  exact (addTypeAttributes_idempotent _ _ _ H).
Defined.

(** X20: a pair under the key [type] among the common attributes of a
    grouping directive has no effect: the result of [parseTargetType]
    is the same with and without it, also when the entry's own node
    gives no name. *)
Theorem common_type_key_is_ignored :
  forall yamlTypeNode commonAttributesYaml,
    parseTargetType yamlTypeNode commonAttributesYaml
    = parseTargetType yamlTypeNode
        (List.filter (fun kv : string * YamlNode => negb (String.eqb kv.1 "type"))
                     commonAttributesYaml).
Proof.
  intros node common. unfold parseTargetType.
  destruct (parseTargetType1 node) as [tu|e]; simpl; [| done].
  revert tu. induction common as [|[k v] common IH]; intros tu; simpl; [done |].
  destruct (String.eqb_spec k "type") as [->|Hk]; simpl.
  - unfold addTypeAttribute. simpl. apply IH.
  - destruct (addTypeAttribute tu (k, v)); simpl; [apply IH | done].
Qed.

(** ** The output directory *)

Lemma back_append_slash (s : string) : back (s ++ "/") = Some slash.
Proof. destruct s as [|c s]; [done | apply back_slash_end]. Qed.

(** X21: the output directory path kept by the translator always ends
    with ['/']: a path that ends with it is kept as it is, any other
    gets one ['/'] appended, and doing it twice adds nothing more. *)
Theorem outputDirPath_ends_with_slash :
  forall outputDirPath,
    back (outputDirPath_of outputDirPath) = Some slash /\
    (back outputDirPath = Some slash ->
     outputDirPath_of outputDirPath = outputDirPath) /\
    (back outputDirPath <> Some slash ->
     outputDirPath_of outputDirPath = (outputDirPath ++ "/")%string) /\
    outputDirPath_of (outputDirPath_of outputDirPath)
    = outputDirPath_of outputDirPath.
Proof.
  intros path.
  assert (Hends : back (outputDirPath_of path) = Some slash).
  { unfold outputDirPath_of, endsWith.
    destruct (is_char (back path) slash) eqn:Hb;
      [by apply is_char_Some | apply back_append_slash]. }
  split; [exact Hends |]. split; [| split].
  - intros Hb. unfold outputDirPath_of, endsWith.
    by apply is_char_Some in Hb as ->.
  - intros Hb. unfold outputDirPath_of, endsWith.
    by apply is_char_not in Hb as ->.
  - unfold outputDirPath_of at 1. unfold endsWith.
    by apply is_char_Some in Hends as ->.
Qed.

Lemma outputDirPath_ends_with_slash_witness :
  back "out" <> Some slash /\ outputDirPath_of "out" = "out/".
Proof.
  assert (Hb : back "out" <> Some slash) by discriminate.
  split; [exact Hb |].
  destruct (outputDirPath_ends_with_slash "out") as (_ & _ & H & _).
  exact (H Hb).
Defined.

(** ** Format names, from the configuration to the resolver *)

(** X22: a format name [/re/] is stored as [/re] and matched by a
    regex search of [re] in the queried format (unless the stored
    pattern is the format itself, which matches without a search); a
    non-empty format name that does not begin with ['/'] is stored as
    it is and matches the format equal to it and no other, without a
    call of the regex library, even when it ends with ['/']. *)
Theorem format_name_roundtrip :
  forall regex_search swaggerFormat,
    (forall re,
        normalizeFormatName (String slash (re ++ "/")) = String slash re /\
        (String slash re <> swaggerFormat ->
         formatMatches regex_search
           (normalizeFormatName (String slash (re ++ "/"))) swaggerFormat
         = regex_result (regex_search swaggerFormat re))) /\
    (forall formatName,
        formatName <> "" -> front formatName <> Some slash ->
        normalizeFormatName formatName = formatName /\
        formatMatches regex_search (normalizeFormatName formatName) swaggerFormat
        = Ok (bool_decide (formatName = swaggerFormat))).
Proof.
  intros rs fmt. split.
  - intros re.
    assert (Hnorm : normalizeFormatName (String slash (re ++ "/"))
                    = String slash re).
    { unfold normalizeFormatName.
      change (empty (String slash (re ++ "/"))) with false.
      change (is_char (front (String slash (re ++ "/"))) slash) with true.
      rewrite back_slash_end, pop_back_slash_end.
      assert (Hsize : (1 <? size (String slash (re ++ "/")))%nat = true).
      { apply Nat.ltb_lt. destruct re; simpl; lia. }
      by rewrite Hsize. }
    split; [exact Hnorm |]. intros Hne. rewrite Hnorm.
    unfold formatMatches. rewrite decide_False by done.
    by rewrite marked.
  - intros name Hne Hfront.
    assert (Hnorm : normalizeFormatName name = name).
    { unfold normalizeFormatName.
      apply empty_false_iff in Hne as ->.
      apply is_char_not in Hfront as ->.
      by rewrite andb_false_r. }
    split; [exact Hnorm |]. rewrite Hnorm.
    apply formatMatches_literal. by apply is_char_not, is_char_not.
Qed.

Lemma format_name_roundtrip_witness :
  ("/u.*int" <> "uint8" /\ "byte/" <> "" /\ front "byte/" <> Some slash) /\
  normalizeFormatName "byte/" = "byte/" /\
  formatMatches FragmentRegex.regex_search (normalizeFormatName "/u.*int/") "uint8"
  = regex_result (FragmentRegex.regex_search "uint8" "u.*int").
Proof.
  assert (H1 : "/u.*int" <> "uint8") by discriminate.
  assert (H2 : "byte/" <> "") by discriminate.
  assert (H3 : front "byte/" <> Some slash) by discriminate.
  split; [split; [discriminate | done] |].
  destruct (format_name_roundtrip FragmentRegex.regex_search "uint8")
    as [Hregex Hliteral].
  split.
  - exact (proj1 (Hliteral "byte/" H2 H3)).
  - exact (proj2 (Hregex "u.*int") H1).
Defined.
